(** * aiohttp-storage: file-name safety and collision resolution

    A shallow embedding of [src/aiohttp_storage/storage.py].

    - Python [str] values are lists of Unicode code points.
    - [pathlib.Path] is the POSIX flavour as of CPython 3.9 - 3.13
      ([with_stem] and [is_relative_to] exist, [suffix] of a name that
      ends in a dot is empty).
    - Exceptions are values: a class and the message of the raise site.
    - [secrets.choice] draws from a tape of natural numbers; the [while]
      loops take fuel.
    - [os.path.realpath] is a function that may raise; the file system
      is a finite map from absolute paths to nodes, with the refusals
      of the operating system that the map does not show as a
      function; an [await] is a plain call, and what other writers do
      between two steps of a call is an explicit argument.
    - The [print] calls of the source write to standard output only and
      are left out. *)

From Stdlib Require Import ZArith Lia List Bool Ascii String.
From stdpp Require Import gmap list.
Import ListNotations.
Local Open Scope Z_scope.

(** ** Strings *)

Definition char := N.
Definition str := list char.

(** A literal: the code points of an ASCII string. *)
Definition u (s : string) : str := map N_of_ascii (list_ascii_of_string s).

Definition len (s : str) : Z := Z.of_nat (length s).

Definition char_eqb (a b : char) : bool := N.eqb a b.

Fixpoint str_eqb (a b : str) : bool :=
  match a, b with
  | [], [] => true
  | x :: a', y :: b' => char_eqb x y && str_eqb a' b'
  | _, _ => false
  end.

(** [s in {...}] on a set literal of strings. *)
Definition str_in (s : str) (l : list str) : bool := existsb (str_eqb s) l.

Definition c_slash : char := 47%N.
Definition c_dot : char := 46%N.
Definition c_hyphen : char := 45%N.
Definition c_underscore : char := 95%N.
Definition c_space : char := 32%N.

Definition dot : str := [c_dot].
Definition dotdot : str := [c_dot; c_dot].

(** ** Exceptions *)

Inductive exc_class :=
| BaseException
| Exception
| ValueError
| SuspiciousFileOperation
| OSError
| FileExistsError
| FileNotFoundError
| NotADirectoryError
| LookupError
| IndexError
| NotImplementedError
| RuntimeError
| UnicodeError
| UnicodeEncodeError
| PermissionError.

(** The class statement of each exception: its direct base. *)
Definition exc_base (c : exc_class) : option exc_class :=
  match c with
  | BaseException => None
  | Exception => Some BaseException
  | ValueError => Some Exception
  | SuspiciousFileOperation => Some ValueError
  | OSError => Some Exception
  | FileExistsError => Some OSError
  | FileNotFoundError => Some OSError
  | NotADirectoryError => Some OSError
  | LookupError => Some Exception
  | IndexError => Some LookupError
  | NotImplementedError => Some RuntimeError
  | RuntimeError => Some Exception
  | UnicodeError => Some ValueError
  | UnicodeEncodeError => Some UnicodeError
  | PermissionError => Some OSError
  end.

Definition exc_class_eqb (a b : exc_class) : bool :=
  match a, b with
  | BaseException, BaseException | Exception, Exception
  | ValueError, ValueError
  | SuspiciousFileOperation, SuspiciousFileOperation
  | OSError, OSError | FileExistsError, FileExistsError
  | FileNotFoundError, FileNotFoundError
  | NotADirectoryError, NotADirectoryError
  | LookupError, LookupError | IndexError, IndexError
  | NotImplementedError, NotImplementedError
  | RuntimeError, RuntimeError | UnicodeError, UnicodeError
  | UnicodeEncodeError, UnicodeEncodeError
  | PermissionError, PermissionError => true
  | _, _ => false
  end.

Fixpoint issubclass_fuel (n : nat) (c d : exc_class) : bool :=
  exc_class_eqb c d ||
  match n with
  | O => false
  | S n' => match exc_base c with
            | Some b => issubclass_fuel n' b d
            | None => false
            end
  end.

Definition issubclass (c d : exc_class) : bool := issubclass_fuel 4 c d.

(** The message of each raise site, with the values it formats. *)
Inductive message :=
| CouldNotDerive (name : str)
| NotSubpath (joined base : str)
| TraversalAttempt (filename : str)
| IncludesPathElements (filename : str)
| TraversalDetected (parent : str)
| NoAvailableFilename (origin : str)
| InvalidBaseUrl
| EmptyName (path : str)
| InvalidName (name : str)
| NotADirectory (path : str)
| OsError (path : str)
| EmbeddedNullByte
| SurrogatesNotAllowed (path : str)
| NoMessage.

Record exn := Raise { exc_type : exc_class; exc_msg : message }.

Inductive result (A : Type) :=
| Ok (a : A)
| Err (e : exn).
Arguments Ok {A} a.
Arguments Err {A} e.

Definition bind {A B} (r : result A) (k : A -> result B) : result B :=
  match r with
  | Ok a => k a
  | Err e => Err e
  end.

Notation "'do' x <- r ; k" := (bind r (fun x => k))
  (at level 10, x name, r at level 100, k at level 200).

(** ** Unicode data used by [get_valid_filename]

    [str.strip], [unicodedata.normalize] and the [\w] class of [re] read
    the Unicode character database of the interpreter. *)

Record unicode_data := {
  isspace : char -> bool;
  isalnum : char -> bool;
  nfkd : str -> str
}.

Section Sanitizer.

Variable ucd : unicode_data.

Fixpoint lstrip_ws (s : str) : str :=
  match s with
  | c :: s' => if isspace ucd c then lstrip_ws s' else s
  | [] => []
  end.

(** [str.strip()] *)
Definition strip (s : str) : str := rev (lstrip_ws (rev (lstrip_ws s))).

(** [s.replace(" ", "_")] *)
Definition replace_space (s : str) : str :=
  map (fun c => if char_eqb c c_space then c_underscore else c) s.

(** [\w] on [str] patterns: alphanumeric or underscore. *)
Definition is_word (c : char) : bool := isalnum ucd c || char_eqb c c_underscore.

(** A character that [[^\w.-]] does not match. *)
Definition kept (c : char) : bool :=
  is_word c || char_eqb c c_dot || char_eqb c c_hyphen.

(** [re.sub(r"[^\w.-]", "", s)] *)
Definition re_sub_unsafe (s : str) : str := List.filter kept s.

Definition get_valid_filename (name : str) : result str :=
  let s := replace_space (strip name) in
  let s := nfkd ucd s in
  let s := re_sub_unsafe s in
  if str_in s [ []; dot; dotdot ] then
    Err (Raise SuspiciousFileOperation (CouldNotDerive name))
  else Ok s.

End Sanitizer.

(** ** pathlib, POSIX flavour *)

(** [s.split("/")] *)
Fixpoint split_sep (s : str) : list str :=
  match s with
  | [] => [[]]
  | c :: s' =>
      if char_eqb c c_slash then [] :: split_sep s'
      else match split_sep s' with
           | w :: ws => (c :: w) :: ws
           | [] => [[c]]
           end
  end.

(** ["/".join(l)] *)
Fixpoint join_sep (l : list str) : str :=
  match l with
  | [] => []
  | [x] => x
  | x :: l' => x ++ c_slash :: join_sep l'
  end.

(** A parsed path: the root ([""], ["/"] or ["//"]) and the components
    after it. *)
Record Path := MkPath { path_root : str; path_tail : list str }.

(** [posixpath.splitroot] without the drive, which is always empty. *)
Definition splitroot (p : str) : str * str :=
  match p with
  | a :: p1 =>
      if negb (char_eqb a c_slash) then ([], p)
      else match p1 with
           | b :: p2 =>
               if negb (char_eqb b c_slash) then ([c_slash], p1)
               else match p2 with
                    | c :: _ =>
                        if char_eqb c c_slash then ([c_slash], p1)
                        else ([c_slash; c_slash], p2)
                    | [] => ([c_slash; c_slash], p2)
                    end
           | [] => ([c_slash], p1)
           end
  | [] => ([], p)
  end.

(** A component that parsing keeps: not empty and not ["."] *)
Definition is_component (x : str) : bool :=
  negb (str_eqb x []) && negb (str_eqb x dot).

(** [Path(s)] *)
Definition parse (s : str) : Path :=
  let (root, rel) := splitroot s in
  MkPath root (List.filter is_component (split_sep rel)).

(** [str(p)] *)
Definition path_str (p : Path) : str :=
  match path_root p ++ join_sep (path_tail p) with
  | [] => dot
  | s => s
  end.

(** [p.parts] *)
Definition parts (p : Path) : list str :=
  match path_root p with
  | [] => path_tail p
  | r => r :: path_tail p
  end.

(** [p.name] *)
Definition name (p : Path) : str := List.last (path_tail p) [].

(** [p.is_absolute()] *)
Definition is_absolute (p : Path) : bool := negb (str_eqb (path_root p) []).

(** [p.parent] *)
Definition parent (p : Path) : Path :=
  MkPath (path_root p) (removelast (path_tail p)).

(** [s.rfind(c)]: the index of the last [c] in [s], or [-1]. *)
Fixpoint rfind (c : char) (s : str) : Z :=
  match s with
  | [] => -1
  | x :: s' =>
      let r := rfind c s' in
      if 0 <=? r then r + 1 else if char_eqb x c then 0 else -1
  end.

(** The test [0 < i < len(name) - 1] of [suffix] and [stem]. *)
Definition has_suffix (nm : str) : bool :=
  let i := rfind c_dot nm in (0 <? i) && (i <? len nm - 1).

(** [p.suffix] *)
Definition suffix (p : Path) : str :=
  let nm := name p in
  if has_suffix nm then drop (Z.to_nat (rfind c_dot nm)) nm else [].

(** [p.stem] *)
Definition stem (p : Path) : str :=
  let nm := name p in
  if has_suffix nm then take (Z.to_nat (rfind c_dot nm)) nm else nm.

(** [c in s] for a character *)
Definition char_in (c : char) (s : str) : bool := existsb (char_eqb c) s.

(** [p.with_name(nm)] *)
Definition with_name (p : Path) (nm : str) : result Path :=
  if str_eqb (name p) [] then Err (Raise ValueError (EmptyName (path_str p)))
  else if str_eqb nm [] || char_in c_slash nm || str_eqb nm dot then
    Err (Raise ValueError (InvalidName nm))
  else Ok (MkPath (path_root p) (removelast (path_tail p) ++ [nm])).

(** [p.with_stem(st)] *)
Definition with_stem (p : Path) (st : str) : result Path :=
  with_name p (st ++ suffix p).

(** [os.path.join(a, b)] *)
Definition os_path_join (a b : str) : str :=
  match b with
  | c :: _ =>
      if char_eqb c c_slash then b
      else if str_eqb a [] || char_eqb (List.last a 0%N) c_slash then a ++ b
      else a ++ c_slash :: b
  | [] =>
      if str_eqb a [] || char_eqb (List.last a 0%N) c_slash then a
      else a ++ [c_slash]
  end.

(** [p.joinpath] on a list of segments *)
Definition joinpath (p : Path) (segments : list str) : Path :=
  parse (fold_left os_path_join segments (path_str p)).

Fixpoint strs_eqb (a b : list str) : bool :=
  match a, b with
  | [], [] => true
  | x :: a', y :: b' => str_eqb x y && strs_eqb a' b'
  | _, _ => false
  end.

(** [p == q] *)
Definition path_eqb (p q : Path) : bool :=
  str_eqb (path_root p) (path_root q) && strs_eqb (path_tail p) (path_tail q).

(** [p.parents]: the path with its last 1, 2, ... components removed. *)
Definition parents (p : Path) : list Path :=
  map (fun k => MkPath (path_root p) (take (length (path_tail p) - S k)%nat (path_tail p)))
      (seq 0 (length (path_tail p))).

(** [p.is_relative_to(other)] *)
Definition is_relative_to (p other : Path) : bool :=
  path_eqb other p || existsb (path_eqb other) (parents p).

(** ** PathGuard: [safe_join] and [validate_file_name] *)

(** What [os.lstat] raises on a path component before it asks the file
    system (encoding UTF-8 with [surrogateescape]): [UnicodeEncodeError]
    for a surrogate code point outside U+DC80 - U+DCFF, then
    [ValueError] for a NUL character. *)
Definition unencodable (c : char) : bool :=
  ((55296 <=? c) && (c <=? 57343) && negb ((56448 <=? c) && (c <=? 56575)))%N.

Definition lstat_error (x : str) : option exn :=
  if existsb unencodable x then
    Some (Raise UnicodeEncodeError (SurrogatesNotAllowed x))
  else if existsb (N.eqb 0) x then Some (Raise ValueError EmbeddedNullByte)
  else None.

(** [os.path.realpath] on a file system without symbolic links, for a
    process whose working directory has the components [cwd]: the
    components are walked from left to right, [".."] removes the
    component before it, every other component is looked at with
    [lstat], whose [OSError]s are ignored, and the result is absolute. *)
Fixpoint realpath_walk (stack : list str) (xs : list str)
  : result (list str) :=
  match xs with
  | [] => Ok stack
  | x :: xs' =>
      if str_eqb x [] || str_eqb x dot then realpath_walk stack xs'
      else if str_eqb x dotdot then realpath_walk (removelast stack) xs'
      else match lstat_error x with
           | Some e => Err e
           | None => realpath_walk (stack ++ [x]) xs'
           end
  end.

Definition realpath_nolinks (cwd : list str) (s : str) : result str :=
  let start := match s with
               | c :: _ => if char_eqb c c_slash then [] else cwd
               | [] => cwd
               end in
  do stack <- realpath_walk start (split_sep s);
  Ok (c_slash :: join_sep stack).

Section PathGuard.

(** [os.path.realpath] of the file system the program runs on; it
    raises on a name it cannot encode and on a loop of links. *)
Variable realpath : str -> result str.

(** [p.resolve()] *)
Definition resolve (p : Path) : result Path :=
  do s <- realpath (path_str p);
  Ok (parse s).

Definition safe_join (base : str) (path : list str) : result str :=
  do base_path <- resolve (parse base);
  do joined_path <- resolve (joinpath base_path path);
  if negb (is_relative_to joined_path base_path) then
    Err (Raise SuspiciousFileOperation
           (NotSubpath (path_str joined_path) (path_str base_path)))
  else Ok (path_str joined_path).

End PathGuard.

Definition validate_file_name (filename : str) (allow_relative_path : bool)
  : result str :=
  let path := parse filename in
  if str_in (name path) [ []; dot; dotdot ] then
    Err (Raise SuspiciousFileOperation (CouldNotDerive filename))
  else if allow_relative_path then
    if is_absolute path || str_in dotdot (parts path) then
      Err (Raise SuspiciousFileOperation (TraversalAttempt filename))
    else Ok filename
  else
    match parts path with
    | [] => Err (Raise IndexError NoMessage)
    | p0 :: _ =>
        if negb (str_eqb p0 (name path)) then
          Err (Raise SuspiciousFileOperation (IncludesPathElements filename))
        else Ok filename
    end.

(** ** NameResolver: [BaseStorage] *)

Definition RANDOM_STRING_CHARS : str :=
  u "abcdefghijklmnopqrstuvwxyzABCDEFGHIJKLMNOPQRSTUVWXYZ0123456789".

(** A computation that may still be running when the fuel is spent
    ([None]) or has finished with a value or an exception. *)
Definition run (A : Type) := option (result A).

Definition run_bind {A B} (m : run A) (k : A -> run B) : run B :=
  match m with
  | None => None
  | Some (Err e) => Some (Err e)
  | Some (Ok a) => k a
  end.

Notation "'run!' ( x , y ) <- m ; k" := (run_bind m (fun '(x, y) => k))
  (at level 10, x name, y name, m at level 100, k at level 200).

Section BaseStorage.

(** [self.exists], the method a backend overrides. *)
Variable exists_ : str -> result bool.

(** The numbers [secrets.choice] draws, in order; a position on the
    tape is the state of the generator. *)
Variable tape : nat -> nat.

(** [choice(seq)] *)
Definition choice (seq : str) (pos : nat) : char * nat :=
  (nth (tape pos mod length seq)%nat seq 0%N, S pos).

(** [[choice(RANDOM_STRING_CHARS) for i in range(n)]] *)
Fixpoint random_string (n : nat) (pos : nat) : str * nat :=
  match n with
  | O => ([], pos)
  | S n' =>
      let (c, pos1) := choice RANDOM_STRING_CHARS pos in
      let (s, pos2) := random_string n' pos1 in
      (c :: s, pos2)
  end.

Definition get_alternative_stem (stem : str) (random_length : nat) (sep : str)
    (pos : nat) : str * nat :=
  let (s, pos') := random_string random_length pos in
  (stem ++ sep ++ s, pos').

(** The defaults [random_length=7] and [sep="_"]. *)
Definition default_random_length : nat := 7.
Definition default_sep : str := [c_underscore].

(** The [while] loop of [get_available_filename]; one unit of fuel per
    evaluation of its condition. *)
Fixpoint available_loop (fuel : nat) (origin_path : Path) (max_len : Z)
    (filename : str) (pos : nat) : run (str * nat) :=
  match fuel with
  | O => None
  | S fuel' =>
      match exists_ filename with
      | Err e => Some (Err e)
      | Ok taken =>
          if taken || ((0 <? max_len) && (max_len <? len filename)) then
            let (alt, pos1) :=
              get_alternative_stem (stem origin_path)
                default_random_length default_sep pos in
            match with_stem origin_path alt with
            | Err e => Some (Err e)
            | Ok p1 =>
                let filename1 := path_str p1 in
                if max_len <=? 0 then
                  available_loop fuel' origin_path max_len filename1 pos1
                else
                  let truncation := len filename1 - max_len in
                  if 0 <? truncation then
                    let truncated_stem :=
                      take (Z.to_nat (len (stem origin_path) - truncation))
                           (stem origin_path) in
                    if str_eqb truncated_stem [] then
                      Some (Err (Raise SuspiciousFileOperation
                                   (NoAvailableFilename (path_str origin_path))))
                    else
                      let (alt2, pos2) :=
                        get_alternative_stem truncated_stem
                          default_random_length default_sep pos1 in
                      match with_stem origin_path alt2 with
                      | Err e => Some (Err e)
                      | Ok p2 =>
                          available_loop fuel' origin_path max_len
                            (path_str p2) pos2
                      end
                  else available_loop fuel' origin_path max_len filename1 pos1
            end
          else Some (Ok (filename, pos))
      end
  end.

(** The two checks before the loop. *)
Definition check_origin (origin_path : Path) : result str :=
  if str_in dotdot (parts origin_path) then
    Err (Raise SuspiciousFileOperation
           (TraversalDetected (path_str (parent origin_path))))
  else validate_file_name (name origin_path) false.

Definition get_available_filename (fuel : nat) (filename : str) (max_len : Z)
    (pos : nat) : run (str * nat) :=
  let origin_path := parse filename in
  match check_origin origin_path with
  | Err e => Some (Err e)
  | Ok _ => available_loop fuel origin_path max_len filename pos
  end.

End BaseStorage.

(** ** The file system *)

Inductive node :=
| File (data : list N)
| Dir.

(** Every existing absolute path, keyed by its canonical string. The
    root directory itself always exists. *)
Abbreviation fs_state := (gmap str node).

Definition root_str : str := [c_slash].

Definition is_dir (fs : fs_state) (p : str) : bool :=
  str_eqb p root_str ||
  match fs !! p with
  | Some Dir => true
  | _ => false
  end.

(** [os.path.lexists(p)] *)
Definition lexists (fs : fs_state) (p : str) : bool :=
  str_eqb p root_str ||
  match fs !! p with
  | Some _ => true
  | None => false
  end.

(** The error, if there is one, with which the operating system
    refuses to create an entry at a path in a state of the file system
    for a reason that the map does not show: a name that is too long,
    a permission that is missing, a full disk. *)
Definition os_refusal := fs_state -> str -> option exn.

(** An operating system that refuses nothing. *)
Definition os_permits_all : os_refusal := fun _ _ => None.

Section FileSystem.

Variable os_refuses : os_refusal.

(** [os.makedirs(p, exist_ok=True)]: the directories [done ++ [d]],
    ... down to [done ++ todo] are created where they are missing. A
    regular file in the place of [p] is a [FileExistsError]; one in the
    place of an ancestor makes the [mkdir] of the directory below it a
    [NotADirectoryError]. *)
Fixpoint makedirs_from (fs : fs_state) (root : str) (done todo : list str)
  : result fs_state :=
  match todo with
  | [] => Ok fs
  | d :: todo' =>
      let here := done ++ [d] in
      let key := path_str (MkPath root here) in
      match fs !! key with
      | Some Dir => makedirs_from fs root here todo'
      | Some (File _) =>
          match todo' with
          | [] => Err (Raise FileExistsError (OsError key))
          | d' :: _ =>
              Err (Raise NotADirectoryError
                     (OsError (path_str (MkPath root (here ++ [d'])))))
          end
      | None =>
          match os_refuses fs key with
          | Some e => Err e
          | None => makedirs_from (<[key := Dir]> fs) root here todo'
          end
      end
  end.

Definition makedirs (fs : fs_state) (p : Path) : result fs_state :=
  makedirs_from fs (path_root p) [] (path_tail p).

(** [open(p, "xb")] followed by one [write(data)]: exclusive creation.
    It fails when the operating system refuses, when the target
    exists, when the parent is a regular file and when the parent is
    missing. *)
Definition open_x (fs : fs_state) (p : Path) (data : list N) : result fs_state :=
  let key := path_str p in
  match os_refuses fs key with
  | Some e => Err e
  | None =>
      if lexists fs key then Err (Raise FileExistsError (OsError key))
      else if is_dir fs (path_str (parent p)) then Ok (<[key := File data]> fs)
      else match fs !! path_str (parent p) with
           | Some (File _) => Err (Raise NotADirectoryError (OsError key))
           | _ => Err (Raise FileNotFoundError (OsError key))
           end
  end.

End FileSystem.

(** [os.unlink(p)]: removes a regular file; a directory or a missing
    path is an [OSError] (of a subclass that depends on the platform
    for a directory). *)
Definition unlink (fs : fs_state) (p : str) : result fs_state :=
  if str_eqb p root_str then Err (Raise OSError (OsError p))
  else match fs !! p with
       | Some (File _) => Ok (base.delete p fs)
       | Some Dir => Err (Raise OSError (OsError p))
       | None => Err (Raise FileNotFoundError (OsError p))
       end.

(** ** [FileSystemStorage] *)

Section FileSystemStorage.

Variable realpath : str -> result str.
Variable os_refuses : os_refusal.
Variable tape : nat -> nat.

(** The constructor arguments. *)
Variable _location : str.
Variable _base_url : option str.

Definition location : result Path := resolve realpath (parse _location).

(** [safe_join(self.location, filename)] *)
Definition join_location (filename : str) : result str :=
  do loc <- location;
  safe_join realpath (path_str loc) [filename].

(** [s.rstrip("/")] and [s.lstrip("/")] *)
Fixpoint lstrip_slash (s : str) : str :=
  match s with
  | c :: s' => if char_eqb c c_slash then lstrip_slash s' else s
  | [] => []
  end.

Definition rstrip_slash (s : str) : str := rev (lstrip_slash (rev s)).

Definition base_url : result str :=
  match _base_url with
  | None | Some [] => Err (Raise ValueError InvalidBaseUrl)
  | Some b => Ok (rstrip_slash b)
  end.

Definition fs_exists (fs : fs_state) (filename : str) : result bool :=
  do dst_path <- join_location filename;
  Ok (lexists fs dst_path).

(** The state a call threads: the files, the position on the random
    tape, and what other writers do to the directory before each of
    this call's attempts to create its file. *)
Record world := World {
  files : fs_state;
  rng_pos : nat;
  others : list (fs_state -> fs_state)
}.

(** The [while True] loop of [_save]. The retry calls
    [get_available_filename(filename)], with [max_len] at its default. *)
Fixpoint save_loop (fuel : nat) (filename : str) (dst_path : Path)
    (data : list N) (w : world) : run (str * world) :=
  match fuel with
  | O => None
  | S fuel' =>
      let fs := match others w with
                | o :: _ => o (files w)
                | [] => files w
                end in
      let rest := List.tl (others w) in
      match open_x os_refuses fs dst_path data with
      | Ok fs' => Some (Ok (filename, World fs' (rng_pos w) rest))
      | Err e =>
          if issubclass (exc_type e) FileExistsError then
            run! (filename', pos') <-
              get_available_filename (fs_exists fs) tape fuel' filename 0
                (rng_pos w);
            match join_location filename' with
            | Err e' => Some (Err e')
            | Ok dst => save_loop fuel' filename' (parse dst) data
                          (World fs pos' rest)
            end
          else Some (Err e)
      end
  end.

Definition _save (fuel : nat) (filename : str) (data : list N) (w : world)
  : run (str * world) :=
  match join_location filename with
  | Err e => Some (Err e)
  | Ok dst =>
      let dst_path := parse dst in
      match makedirs os_refuses (files w) (parent dst_path) with
      | Err e => Some (Err e)
      | Ok fs => save_loop fuel filename dst_path data
                   (World fs (rng_pos w) (others w))
      end
  end.

(** [BaseStorage.save] on this backend. *)
Definition save (fuel : nat) (filename : str) (data : list N) (max_len : Z)
    (w : world) : run (str * world) :=
  run! (filename1, pos1) <-
    get_available_filename (fs_exists (files w)) tape fuel filename max_len
      (rng_pos w);
  run! (filename2, w2) <-
    _save fuel filename1 data (World (files w) pos1 (others w));
  match validate_file_name filename2 true with
  | Err e => Some (Err e)
  | Ok _ => Some (Ok (filename2, w2))
  end.

Definition url (filename : str) : result str :=
  do _ <- validate_file_name filename true;
  do b <- base_url;
  Ok (b ++ c_slash :: lstrip_slash filename).

Definition delete (filename : str) (fs : fs_state) : result fs_state :=
  do present <- fs_exists fs filename;
  if present then
    do dst <- join_location filename;
    unlink fs dst
  else Ok fs.

End FileSystemStorage.

(** ** Vocabulary of the statements *)

(** The characters of [[A-Za-z0-9._-]]. *)
Definition ascii_safe (c : char) : bool :=
  ((48 <=? c) && (c <=? 57))%N || ((65 <=? c) && (c <=? 90))%N ||
  ((97 <=? c) && (c <=? 122))%N ||
  char_eqb c c_dot || char_eqb c c_underscore || char_eqb c c_hyphen.

(** ASCII letters and digits. *)
Definition ascii_alnum (c : char) : bool :=
  ((48 <=? c) && (c <=? 57))%N || ((65 <=? c) && (c <=? 90))%N ||
  ((97 <=? c) && (c <=? 122))%N.

(** [str.isspace] of one character: the code points with the Unicode
    White_Space property or bidirectional class B or S. *)
Definition unicode_isspace (c : char) : bool :=
  (((9 <=? c) && (c <=? 13)) || ((28 <=? c) && (c <=? 32)) ||
   (c =? 133) || (c =? 160) || (c =? 5760) ||
   ((8192 <=? c) && (c <=? 8202)) || (c =? 8232) || (c =? 8233) ||
   (c =? 8239) || (c =? 8287) || (c =? 12288))%N.

(** U+00DF LATIN SMALL LETTER SHARP S: a lowercase letter without a
    decomposition. *)
Definition c_sharp_s : char := 223%N.

(** The Unicode data on ASCII and U+00DF. Code points outside that
    range are treated as neither alphanumeric nor decomposable, so it is
    the interpreter's data only for strings over ASCII and U+00DF. *)
Definition ucd_ascii_sharp_s : unicode_data :=
  {| isspace := unicode_isspace;
     isalnum := fun c => ascii_alnum c || char_eqb c c_sharp_s;
     nfkd := fun s => s |}.

(** [p] is [q] or lies below it. *)
Definition within (p q : Path) : Prop :=
  path_root p = path_root q /\ exists rest, path_tail p = path_tail q ++ rest.

(** A component of a parsed path: it is not empty, not ["."] and has no
    separator in it. *)
Definition component (x : str) : Prop :=
  x <> [] /\ x <> dot /\ ~ In c_slash x.

(** What parsing produces. *)
Definition wf_path (p : Path) : Prop :=
  (path_root p = [] \/ path_root p = [c_slash] \/
   path_root p = [c_slash; c_slash]) /\
  Forall component (path_tail p).

(** The text that precedes the last component in [str(p)]. *)
Definition dir_text (root : str) (dirs : list str) : str :=
  root ++ flat_map (fun x => x ++ [c_slash]) dirs.

(** The stem of a candidate: a prefix of the original stem, the
    separator and seven random characters. *)
Definition alt_stem (tape : nat -> nat) (origin : Path) (k q : nat) : str :=
  take k (stem origin) ++ default_sep ++
  fst (random_string tape default_random_length q).

(** The candidate path with the stem [alt_stem tape origin k q]. *)
Definition candidate (tape : nat -> nat) (origin : Path) (k q : nat) : Path :=
  MkPath (path_root origin)
    (removelast (path_tail origin) ++
     [alt_stem tape origin k q ++ suffix origin]).

(** [name] came out of an iteration of the loop of
    [get_available_filename] that started at tape position [pos] or
    later: it is the origin with its stem replaced by the first [k]
    characters of the original stem, the separator and the seven
    characters drawn at positions [q], ..., [q + 6], the last draws
    before [pos']. When the stem was cut ([k] is less than its length)
    those draws come after the seven of the uncut candidate and the
    name fills the budget exactly. *)
Definition made (tape : nat -> nat) (origin : Path) (max_len : Z) (pos : nat)
    (name : str) (pos' : nat) : Prop :=
  exists (k q : nat) (p : Path),
    (0 < k <= length (stem origin))%nat /\ (pos <= q)%nat /\
    pos' = (q + 7)%nat /\
    with_stem origin (alt_stem tape origin k q) = Ok p /\
    name = path_str p /\
    ((k < length (stem origin))%nat ->
     (pos + 7 <= q)%nat /\ 0 < max_len /\ len name = max_len).

(** The name ends in a dot. *)
Definition ends_with_dot (nm : str) : bool := char_eqb (List.last nm 0%N) c_dot.

(** A call of one of the name-checking operations. *)
Inductive call :=
| CallGetValidFilename (ucd : unicode_data) (name : str)
| CallSafeJoin (realpath : str -> result str) (base : str) (path : list str)
| CallValidateFileName (filename : str) (allow_relative_path : bool)
| CallGetAvailableFilename (ex : str -> bool) (tape : nat -> nat)
    (fuel : nat) (filename : str) (max_len : Z) (pos : nat).

Definition raised_by {A} (r : result A) : option exn :=
  match r with
  | Err e => Some e
  | Ok _ => None
  end.

(** The exception a call ends with, if it ends with one. *)
Definition raised (c : call) : option exn :=
  match c with
  | CallGetValidFilename ucd nm => raised_by (get_valid_filename ucd nm)
  | CallSafeJoin rp base path => raised_by (safe_join rp base path)
  | CallValidateFileName f a => raised_by (validate_file_name f a)
  | CallGetAvailableFilename ex tape fuel f m pos =>
      match get_available_filename (fun n => Ok (ex n)) tape fuel f m pos with
      | Some r => raised_by r
      | None => None
      end
  end.

(** A component that [realpath] keeps: a component other than [".."]
    on which [lstat] does not raise. *)
Definition proper (x : str) : Prop :=
  component x /\ x <> dotdot /\ lstat_error x = None.

(** The file name does not start with the separator. *)
Definition relative (f : str) : Prop :=
  match f with
  | c :: _ => c <> c_slash
  | [] => True
  end.

(** Every entry of [fs] is an entry of [fs'], with the same content. *)
Definition preserved (fs fs' : fs_state) : Prop :=
  forall p n, fs !! p = Some n -> fs' !! p = Some n.

(** The exception came out of [realpath], not out of the code. *)
Definition from_realpath (c : call) (e : exn) : Prop :=
  match c with
  | CallSafeJoin rp _ _ => exists s, rp s = Err e
  | _ => False
  end.

(** The failures of a name that the operations test for themselves:
    nothing left after sanitizing; a last component that is empty,
    ["."] or [".."]; a first part other than the name where no path is
    allowed; an absolute path or a [".."] component where one is; a
    joined path outside the base; a desired name with [".."] or without
    a component; and a budget that leaves no room for the stem. *)
Inductive name_failure : call -> Prop :=
| NfSanitized ucd raw :
    In (re_sub_unsafe ucd (nfkd ucd (replace_space (strip ucd raw))))
       [[]; dot; dotdot] ->
    name_failure (CallGetValidFilename ucd raw)
| NfLastComponent f a :
    In (name (parse f)) [[]; dot; dotdot] ->
    name_failure (CallValidateFileName f a)
| NfEmbeddedPath f p0 ps :
    parts (parse f) = p0 :: ps -> p0 <> name (parse f) ->
    name_failure (CallValidateFileName f false)
| NfAbsolute f :
    path_root (parse f) <> [] -> name_failure (CallValidateFileName f true)
| NfTraversal f :
    In dotdot (parts (parse f)) -> name_failure (CallValidateFileName f true)
| NfOutside rp base path b j :
    resolve rp (parse base) = Ok b ->
    resolve rp (joinpath b path) = Ok j ->
    ~ within j b ->
    name_failure (CallSafeJoin rp base path)
| NfResolverTraversal ex tape fuel f m pos :
    In dotdot (parts (parse f)) ->
    name_failure (CallGetAvailableFilename ex tape fuel f m pos)
| NfResolverNoName ex tape fuel f m pos :
    path_tail (parse f) = [] ->
    name_failure (CallGetAvailableFilename ex tape fuel f m pos)
| NfExhausted ex tape fuel f m pos :
    path_tail (parse f) <> [] -> ~ In dotdot (path_tail (parse f)) ->
    ex f = true \/ m < len f ->
    0 < m <= len (path_str (parse f)) - len (stem (parse f)) + 8 ->
    name_failure (CallGetAvailableFilename ex tape (S fuel) f m pos).

(** Another writer creates an empty file at the absolute path [p]. *)
Definition other_writer_creates (p : str) (fs : fs_state) : fs_state :=
  <[p := File []]> fs.

(** A tape that counts up, so that the first seven draws spell
    ["abcdefg"], and one that strides through the alphabet. *)
Definition tape_count (n : nat) : nat := n.
Definition tape_stride (n : nat) : nat := (n * 7 + 3)%nat.

(** ** Strings and lists *)

Lemma str_eqb_eq (a b : str) : str_eqb a b = true <-> a = b.
Proof.
  revert b; induction a as [|x a IH]; intros [|y b]; simpl; try easy.
  unfold char_eqb. rewrite andb_true_iff, N.eqb_eq, IH.
  split; [intros [-> ->]; reflexivity | intros [= -> ->]; auto].
Qed.

Lemma str_eqb_refl (a : str) : str_eqb a a = true.
Proof. apply str_eqb_eq; reflexivity. Qed.

Lemma str_eqb_neq (a b : str) : str_eqb a b = false <-> a <> b.
Proof.
  rewrite <- str_eqb_eq. destruct (str_eqb a b); split; congruence.
Qed.

Lemma str_in_In (s : str) (l : list str) : str_in s l = true <-> In s l.
Proof.
  unfold str_in. rewrite existsb_exists. split.
  - intros (x & Hx & E). apply str_eqb_eq in E. subst; assumption.
  - intros H. exists s. split; [assumption | apply str_eqb_refl].
Qed.

Lemma str_in_false (s : str) (l : list str) : str_in s l = false <-> ~ In s l.
Proof.
  rewrite <- str_in_In. destruct (str_in s l); split; congruence.
Qed.

Lemma char_in_In (c : char) (s : str) : char_in c s = true <-> In c s.
Proof.
  unfold char_in. rewrite existsb_exists. split.
  - intros (x & Hx & E). apply N.eqb_eq in E. subst; assumption.
  - intros H. exists c. split; [assumption | apply N.eqb_refl].
Qed.

Lemma char_in_false (c : char) (s : str) : char_in c s = false <-> ~ In c s.
Proof.
  rewrite <- char_in_In. destruct (char_in c s); split; congruence.
Qed.

Lemma len_app (a b : str) : len (a ++ b) = len a + len b.
Proof. unfold len. rewrite length_app. lia. Qed.

Lemma len_nonneg (a : str) : 0 <= len a.
Proof. unfold len. lia. Qed.

Lemma strs_eqb_eq (a b : list str) : strs_eqb a b = true <-> a = b.
Proof.
  revert b; induction a as [|x a IH]; intros [|y b]; simpl; try easy.
  rewrite andb_true_iff, str_eqb_eq, IH.
  split; [intros [-> ->]; reflexivity | intros [= -> ->]; auto].
Qed.

Lemma path_eqb_eq (p q : Path) : path_eqb p q = true <-> p = q.
Proof.
  destruct p as [r t], q as [r' t']. unfold path_eqb; simpl.
  rewrite andb_true_iff, str_eqb_eq, strs_eqb_eq.
  split; [intros [-> ->]; reflexivity | intros [= -> ->]; auto].
Qed.

(** ** NameSanitizer *)

Lemma filter_kept_Forall (ucd : unicode_data) (s : str) :
  Forall (fun c => kept ucd c = true) (re_sub_unsafe ucd s).
Proof.
  unfold re_sub_unsafe. induction s as [|c s IH]; simpl.
  - constructor.
  - destruct (kept ucd c) eqn:K; [constructor|]; assumption.
Qed.

Lemma kept_cases (ucd : unicode_data) (c : char) :
  kept ucd c = true ->
  isalnum ucd c = true \/ c = c_underscore \/ c = c_dot \/ c = c_hyphen.
Proof.
  unfold kept, is_word, char_eqb.
  rewrite !orb_true_iff, !N.eqb_eq. tauto.
Qed.

(** C4, as the code has it: [get_valid_filename] either raises
    [SuspiciousFileOperation] or returns a string in which every
    character is alphanumeric in the Unicode sense ([str.isalnum], which
    is what [\w] matches besides the underscore), an underscore, a dot
    or a hyphen, and which is not empty, not ["."] and not [".."]. *)
Theorem get_valid_filename_output (ucd : unicode_data) (raw : str) :
  match get_valid_filename ucd raw with
  | Err e => e = Raise SuspiciousFileOperation (CouldNotDerive raw)
  | Ok s =>
      Forall (fun c => isalnum ucd c = true \/ c = c_underscore \/
                       c = c_dot \/ c = c_hyphen) s /\
      s <> [] /\ s <> dot /\ s <> dotdot
  end.
Proof.
  unfold get_valid_filename.
  set (s := re_sub_unsafe ucd _).
  destruct (str_in s [[]; dot; dotdot]) eqn:E; [reflexivity|].
  apply str_in_false in E. simpl in E.
  split.
  - eapply List.Forall_impl; [|apply filter_kept_Forall].
    intros c; apply kept_cases.
  - repeat split; intros ->; apply E; auto.
Qed.

(** C4, as the spec has it, fails: the letter U+00DF is alphanumeric, so
    the result keeps it although it is outside [[A-Za-z0-9._-]]. *)
Lemma get_valid_filename_keeps_sharp_s :
  get_valid_filename ucd_ascii_sharp_s [c_sharp_s] = Ok [c_sharp_s] /\
  forallb ascii_safe [c_sharp_s] = false.
Proof. split; reflexivity. Qed.

(** On ASCII input the two character sets agree: the test of the
    repository. *)
Example get_valid_filename_test :
  get_valid_filename ucd_ascii_sharp_s (u "test some file.jpg") = Ok (u "test_some_file.jpg").
Proof. reflexivity. Qed.

(** ** PathGuard *)

Lemma is_relative_to_within (p q : Path) :
  is_relative_to p q = true <-> within p q.
Proof.
  destruct p as [r t], q as [r' t']. unfold is_relative_to, within; simpl.
  rewrite orb_true_iff, path_eqb_eq, existsb_exists. split.
  - intros [E | (x & Hin & E)].
    + inversion E; subst. split; [reflexivity|]. exists []. now rewrite app_nil_r.
    + apply path_eqb_eq in E. subst x.
      unfold parents in Hin; simpl in Hin.
      apply in_map_iff in Hin as (k & E & _). inversion E; subst.
      split; [reflexivity|].
      exists (drop (length t - S k)%nat t). now rewrite take_drop.
  - intros [-> (rest & ->)].
    destruct rest as [|x rest].
    + left. now rewrite app_nil_r.
    + right. exists (MkPath r' t'). split; [|apply path_eqb_eq; reflexivity].
      unfold parents; simpl. apply in_map_iff.
      exists (length rest). split.
      * f_equal. rewrite length_app; simpl.
        replace (length t' + S (length rest) - S (length rest))%nat
          with (length t') by lia.
        now rewrite take_app_length.
      * apply in_seq. rewrite length_app; simpl. lia.
Qed.

(** C1, as the code has it: when both canonical paths exist,
    [safe_join] fails exactly when the resolved joined path is neither
    the resolved base nor below it, and returns the resolved joined
    path otherwise, whatever components the file name has. An
    exception of [resolve] is passed on as it is. *)
Theorem safe_join_fails_iff_outside (realpath : str -> result str)
    (base : str) (path : list str) :
  match resolve realpath (parse base) with
  | Err e => safe_join realpath base path = Err e
  | Ok base_path =>
      match resolve realpath (joinpath base_path path) with
      | Err e => safe_join realpath base path = Err e
      | Ok joined_path =>
          (within joined_path base_path <->
             safe_join realpath base path = Ok (path_str joined_path)) /\
          (~ within joined_path base_path <->
             safe_join realpath base path =
               Err (Raise SuspiciousFileOperation
                      (NotSubpath (path_str joined_path) (path_str base_path))))
      end
  end.
Proof.
  unfold safe_join.
  destruct (resolve realpath (parse base)) as [base_path|e]; [|reflexivity].
  cbn [bind].
  destruct (resolve realpath (joinpath base_path path)) as [joined_path|e];
    [|reflexivity].
  cbn [bind]. rewrite <- is_relative_to_within.
  destruct (is_relative_to joined_path base_path); simpl;
    split; split; intros H; try reflexivity; congruence.
Qed.

(** C1, as the spec has it, fails: under [/abc] the name [a/../b] has a
    [..] component and is joined to [/abc/b] without an error. *)
Lemma safe_join_accepts_inner_dotdot :
  In dotdot (parts (parse (u "a/../b"))) /\
  safe_join (realpath_nolinks []) (u "/abc") [u "a/../b"] = Ok (u "/abc/b").
Proof. split; [simpl; auto | reflexivity]. Qed.

(** The tests of the repository: a name that leaves the base is
    refused, and the empty name joins to the base itself. *)
Example safe_join_test_parent_path :
  safe_join (realpath_nolinks []) (u "/abc/") [u "../def"] =
  Err (Raise SuspiciousFileOperation (NotSubpath (u "/def") (u "/abc"))).
Proof. reflexivity. Qed.

Example safe_join_test_root_path :
  safe_join (realpath_nolinks []) (u "/") [u "path"] = Ok (u "/path") /\
  safe_join (realpath_nolinks []) (u "/") [u ""] = Ok (u "/") /\
  safe_join (realpath_nolinks []) (u "/abc/") [u "abc"] = Ok (u "/abc/abc").
Proof. repeat split. Qed.

(** C2 fails on the code: [a/a] has two segments and passes the check
    that compares the first part with the name. *)
Theorem validate_file_name_accepts_repeated_segment :
  parts (parse (u "a/a")) = [u "a"; u "a"] /\
  validate_file_name (u "a/a") false = Ok (u "a/a").
Proof. split; reflexivity. Qed.

(** ** Parsing and printing paths *)

Lemma split_sep_nonempty (s : str) : split_sep s <> [].
Proof.
  destruct s as [|c s]; simpl; [easy|].
  destruct (char_eqb c c_slash); [easy|].
  destruct (split_sep s); easy.
Qed.

Lemma split_sep_no_slash (s : str) :
  Forall (fun x => ~ In c_slash x) (split_sep s).
Proof.
  induction s as [|c s IH]; simpl.
  - constructor; [easy | constructor].
  - destruct (char_eqb c c_slash) eqn:E.
    + constructor; [easy | assumption].
    + destruct (split_sep s) as [|w ws]; [constructor; [|constructor]|].
      * simpl. intros [H|[]]. subst c. now rewrite N.eqb_refl in E.
      * inversion IH; subst. constructor; [|assumption].
        simpl. intros [H|H]; [|contradiction].
        subst c. now rewrite N.eqb_refl in E.
Qed.

Lemma is_component_true (x : str) :
  is_component x = true <-> x <> [] /\ x <> dot.
Proof.
  unfold is_component.
  rewrite andb_true_iff, !negb_true_iff, !str_eqb_neq. tauto.
Qed.

Lemma splitroot_root (s : str) :
  fst (splitroot s) = [] \/ fst (splitroot s) = [c_slash] \/
  fst (splitroot s) = [c_slash; c_slash].
Proof.
  unfold splitroot.
  destruct s as [|a [|b [|c s]]]; simpl; auto;
    repeat match goal with
           | |- context [char_eqb ?x c_slash] => destruct (char_eqb x c_slash)
           end; simpl; auto.
Qed.

Lemma parse_wf (s : str) : wf_path (parse s).
Proof.
  unfold parse. pose proof (splitroot_root s) as Hr.
  destruct (splitroot s) as [root rel]. split; [exact Hr|]. simpl.
  pose proof (split_sep_no_slash rel) as Hs.
  induction Hs as [|x l Hx Hl IH]; simpl; [constructor|].
  destruct (is_component x) eqn:E; [|assumption].
  apply is_component_true in E as [? ?].
  constructor; [repeat split; assumption | assumption].
Qed.

Lemma join_sep_cons (x : str) (l : list str) :
  l <> [] -> join_sep (x :: l) = x ++ c_slash :: join_sep l.
Proof. destruct l; [congruence | reflexivity]. Qed.

Lemma join_sep_snoc (l : list str) (x : str) :
  join_sep (l ++ [x]) = flat_map (fun y => y ++ [c_slash]) l ++ x.
Proof.
  induction l as [|y l IH]; [reflexivity|].
  change ((y :: l) ++ [x]) with (y :: (l ++ [x])).
  rewrite join_sep_cons by (destruct l; discriminate).
  rewrite IH. simpl. rewrite <- !app_assoc. reflexivity.
Qed.

Lemma path_str_snoc (root : str) (dirs : list str) (nm : str) :
  nm <> [] -> path_str (MkPath root (dirs ++ [nm])) = dir_text root dirs ++ nm.
Proof.
  intros Hnm. unfold path_str, dir_text; simpl.
  rewrite join_sep_snoc, app_assoc.
  destruct ((root ++ flat_map (fun y => y ++ [c_slash]) dirs) ++ nm) eqn:E;
    [|reflexivity].
  apply app_eq_nil in E as [_ ->]. congruence.
Qed.

Lemma split_sep_word (x : str) : ~ In c_slash x -> split_sep x = [x].
Proof.
  induction x as [|c x IH]; simpl; intros H; [reflexivity|].
  destruct (char_eqb c c_slash) eqn:E.
  - apply N.eqb_eq in E. tauto.
  - rewrite IH by tauto. reflexivity.
Qed.

Lemma split_sep_app (x rest : str) :
  ~ In c_slash x -> split_sep (x ++ c_slash :: rest) = x :: split_sep rest.
Proof.
  induction x as [|c x IH]; simpl; intros H.
  - reflexivity.
  - destruct (char_eqb c c_slash) eqn:E.
    + apply N.eqb_eq in E. tauto.
    + rewrite IH by tauto. reflexivity.
Qed.

Lemma split_join_sep (l : list str) :
  l <> [] -> Forall component l -> split_sep (join_sep l) = l.
Proof.
  induction l as [|x l IH]; [congruence|]. intros _ Hl.
  inversion Hl as [|? ? (_ & _ & Hx) Hl']; subst.
  destruct l as [|y l].
  - simpl. apply split_sep_word; assumption.
  - rewrite join_sep_cons by discriminate.
    rewrite split_sep_app by assumption.
    rewrite IH by (auto; discriminate). reflexivity.
Qed.

Lemma filter_components (l : list str) :
  Forall component l -> List.filter is_component l = l.
Proof.
  induction 1 as [|x l (H1 & H2 & _) _ IH]; simpl; [reflexivity|].
  replace (is_component x) with true
    by (symmetry; apply is_component_true; auto).
  now rewrite IH.
Qed.

Lemma join_sep_head (l : list str) :
  l <> [] -> Forall component l ->
  exists c s, join_sep l = c :: s /\ char_eqb c c_slash = false.
Proof.
  destruct l as [|x l]; [congruence|]. intros _ Hl.
  inversion Hl as [|? ? (Hne & _ & Hx) _]; subst.
  destruct x as [|c x]; [congruence|].
  exists c. destruct l as [|y l].
  - exists x. split; [reflexivity|].
    apply N.eqb_neq. intros ->. apply Hx. now left.
  - exists (x ++ c_slash :: join_sep (y :: l)). split; [reflexivity|].
    apply N.eqb_neq. intros ->. apply Hx. now left.
Qed.

(** Parsing what [str] printed gives the path back. *)
Lemma parse_path_str (p : Path) : wf_path p -> parse (path_str p) = p.
Proof.
  destruct p as [root tl]. intros [Hroot Htl]; simpl in *.
  destruct tl as [|x tl].
  - destruct Hroot as [-> | [-> | ->]]; reflexivity.
  - destruct (join_sep_head (x :: tl)) as (c & s & Ej & Ec);
      [discriminate | assumption |].
    assert (F : List.filter is_component (split_sep (c :: s)) = x :: tl).
    { rewrite <- Ej, split_join_sep by (auto; discriminate).
      apply filter_components; assumption. }
    unfold path_str; simpl path_root; simpl path_tail. rewrite Ej.
    destruct Hroot as [-> | [-> | ->]]; unfold parse, splitroot; simpl app;
      cbv match; rewrite ?Ec; simpl negb; cbv iota;
      try (change (char_eqb c_slash c_slash) with true; cbv iota; simpl negb;
           cbv iota; rewrite ?Ec; simpl negb; cbv iota);
      rewrite F; reflexivity.
Qed.

(** ** Names, stems and suffixes *)

Lemma rfind_ge (c : char) (s : str) : -1 <= rfind c s < len s.
Proof.
  unfold len. induction s as [|x s IH]; simpl rfind; simpl length; [lia|].
  destruct (0 <=? rfind c s) eqn:E; [apply Z.leb_le in E; lia|].
  destruct (char_eqb x c); lia.
Qed.

Lemma rfind_none (c : char) (s : str) : rfind c s = -1 <-> ~ In c s.
Proof.
  induction s as [|x s IH]; simpl; [tauto|].
  pose proof (rfind_ge c s) as G.
  destruct (0 <=? rfind c s) eqn:E.
  - apply Z.leb_le in E. split; [lia|]. intros H.
    assert (R : rfind c s = -1) by (apply IH; tauto). lia.
  - apply Z.leb_gt in E. assert (R : rfind c s = -1) by lia.
    apply IH in R. unfold char_eqb. destruct (N.eqb_spec x c).
    + split; [lia | tauto].
    + split; [intros _ [H|H]; tauto | reflexivity].
Qed.

Lemma rfind_app (c : char) (a b : str) :
  rfind c (a ++ b) =
  if 0 <=? rfind c b then len a + rfind c b else rfind c a.
Proof.
  induction a as [|x a IH]; simpl app; simpl rfind.
  - pose proof (rfind_ge c b). unfold len; simpl.
    destruct (0 <=? rfind c b) eqn:E; [lia|]. apply Z.leb_gt in E. lia.
  - rewrite IH. pose proof (rfind_ge c b) as Gb. pose proof (len_nonneg a).
    replace (len (x :: a)) with (len a + 1) by (unfold len; simpl; lia).
    destruct (0 <=? rfind c b) eqn:E.
    + apply Z.leb_le in E.
      replace (0 <=? len a + rfind c b) with true
        by (symmetry; apply Z.leb_le; lia). lia.
    + reflexivity.
Qed.

Lemma rfind_split (c : char) (s : str) :
  0 <= rfind c s ->
  exists a b, s = a ++ c :: b /\ ~ In c b /\ len a = rfind c s.
Proof.
  induction s as [|x s IH]; simpl; [lia|]. intros H.
  destruct (0 <=? rfind c s) eqn:E.
  - apply Z.leb_le in E. destruct (IH E) as (a & b & -> & Hb & Hl).
    exists (x :: a), b. repeat split; [assumption|].
    unfold len in *; simpl length. lia.
  - apply Z.leb_gt in E. pose proof (rfind_ge c s).
    assert (R : rfind c s = -1) by lia. apply rfind_none in R.
    unfold char_eqb in *. destruct (N.eqb_spec x c); [|lia].
    subst x. exists [], s. repeat split; assumption.
Qed.

Lemma name_snoc (root : str) (dirs : list str) (nm : str) :
  name (MkPath root (dirs ++ [nm])) = nm.
Proof. unfold name; simpl. apply last_last. Qed.

Lemma stem_suffix (p : Path) : stem p ++ suffix p = name p.
Proof.
  unfold stem, suffix. destruct (has_suffix (name p)); [apply take_drop|].
  apply app_nil_r.
Qed.

(** The suffix of a name, when it has one: a dot and a nonempty
    extension without dots. *)
Lemma suffix_shape (p : Path) :
  suffix p = [] \/
  exists ext, suffix p = c_dot :: ext /\ ext <> [] /\ ~ In c_dot ext /\
              stem p <> [].
Proof.
  unfold suffix, stem. destruct (has_suffix (name p)) eqn:H; [right | now left].
  unfold has_suffix in H. apply andb_true_iff in H as [H1 H2].
  apply Z.ltb_lt in H1, H2.
  destruct (rfind_split c_dot (name p)) as (a & b & E & Hb & Hl); [lia|].
  rewrite <- Hl in *. rewrite E in *. clear E.
  unfold len in *. rewrite Nat2Z.id.
  rewrite drop_app_length, take_app_length.
  exists b. repeat split; [|assumption|].
  - intros ->. rewrite length_app in H2; simpl in H2. lia.
  - intros ->. simpl in H1. lia.
Qed.

Lemma suffix_of_snoc (root : str) (dirs : list str) (st ext : str) :
  st <> [] -> ext <> [] -> ~ In c_dot ext ->
  suffix (MkPath root (dirs ++ [st ++ c_dot :: ext])) = c_dot :: ext /\
  stem (MkPath root (dirs ++ [st ++ c_dot :: ext])) = st.
Proof.
  intros Hst Hext Hno. unfold suffix, stem. rewrite name_snoc.
  assert (R : rfind c_dot (st ++ c_dot :: ext) = len st).
  { rewrite rfind_app. simpl rfind.
    apply rfind_none in Hno. rewrite Hno. simpl. lia. }
  unfold has_suffix. rewrite R.
  assert (0 < len st) by (unfold len; destruct st; simpl; [congruence | lia]).
  assert (0 < len ext) by (unfold len; destruct ext; simpl; [congruence | lia]).
  replace (0 <? len st) with true by (symmetry; apply Z.ltb_lt; lia).
  replace (len st <? len (st ++ c_dot :: ext) - 1) with true.
  2:{ symmetry; apply Z.ltb_lt. rewrite len_app.
      change (c_dot :: ext) with ([c_dot] ++ ext). rewrite len_app.
      unfold len at 3; simpl. lia. }
  simpl andb. cbv iota. unfold len. rewrite Nat2Z.id.
  now rewrite drop_app_length, take_app_length.
Qed.

(** A name without a suffix that does not end in a dot has no dot after
    its first character. *)
Lemma no_suffix_no_inner_dot (nm : str) :
  has_suffix nm = false -> ends_with_dot nm = false -> rfind c_dot nm <= 0.
Proof.
  unfold has_suffix, ends_with_dot. intros H Hd.
  destruct (Z.ltb_spec 0 (rfind c_dot nm)) as [Hpos|]; [|lia]. exfalso.
  simpl in H. apply Z.ltb_ge in H.
  destruct (rfind_split c_dot nm) as (a & b & E & Hb & Hl); [lia|].
  pose proof (rfind_ge c_dot nm) as G. rewrite <- Hl in *.
  rewrite E in *. rewrite len_app in *.
  change (c_dot :: b) with ([c_dot] ++ b) in *. rewrite len_app in *.
  unfold len in G, H; simpl in G, H.
  destruct b; [|simpl in *; lia].
  change ([c_dot] ++ []) with [c_dot] in Hd.
  rewrite last_last in Hd. unfold char_eqb in Hd.
  now rewrite N.eqb_refl in Hd.
Qed.

Lemma rfind_le0_tail (c x : char) (s : str) :
  rfind c (x :: s) <= 0 <-> ~ In c s.
Proof.
  simpl. pose proof (rfind_ge c s). rewrite <- rfind_none.
  destruct (0 <=? rfind c s) eqn:E.
  - apply Z.leb_le in E. lia.
  - apply Z.leb_gt in E. destruct (char_eqb x c); lia.
Qed.

Lemma In_take (c : char) (s : str) (k : nat) : In c (take k s) -> In c s.
Proof.
  revert k; induction s as [|x s IH]; intros [|k]; simpl; try tauto.
  intros [H|H]; [now left | right; eauto].
Qed.

Lemma rfind_le0_take (c : char) (s : str) (k : nat) :
  rfind c s <= 0 -> rfind c (take k s) <= 0.
Proof.
  destruct s as [|x s]; [destruct k; simpl; lia|].
  destruct k; [simpl; lia|]. simpl take.
  rewrite !rfind_le0_tail. intros H Hin. apply H.
  eapply In_take; eassumption.
Qed.

Lemma suffix_of_plain (root : str) (dirs : list str) (nm : str) :
  rfind c_dot nm <= 0 ->
  suffix (MkPath root (dirs ++ [nm])) = [] /\
  stem (MkPath root (dirs ++ [nm])) = nm.
Proof.
  intros H. unfold suffix, stem. rewrite name_snoc. unfold has_suffix.
  replace (0 <? rfind c_dot nm) with false by (symmetry; apply Z.ltb_ge; lia).
  split; reflexivity.
Qed.

(** ** The random stem *)

Lemma random_string_S (tape : nat -> nat) (n pos : nat) :
  random_string tape (S n) pos =
  (nth (tape pos mod length RANDOM_STRING_CHARS)%nat RANDOM_STRING_CHARS 0%N
     :: fst (random_string tape n (S pos)),
   snd (random_string tape n (S pos))).
Proof.
  cbn [random_string choice].
  destruct (random_string tape n (S pos)); reflexivity.
Qed.

Lemma random_string_snd (tape : nat -> nat) (n pos : nat) :
  snd (random_string tape n pos) = (pos + n)%nat.
Proof.
  revert pos; induction n as [|n IH]; intros pos.
  - simpl. lia.
  - rewrite random_string_S. cbn [snd]. rewrite IH. lia.
Qed.

Lemma random_string_length (tape : nat -> nat) (n pos : nat) :
  length (fst (random_string tape n pos)) = n.
Proof.
  revert pos; induction n as [|n IH]; intros pos.
  - reflexivity.
  - rewrite random_string_S. cbn [fst length]. now rewrite IH.
Qed.

Lemma random_string_chars (tape : nat -> nat) (n pos : nat) :
  Forall (fun c => In c RANDOM_STRING_CHARS) (fst (random_string tape n pos)).
Proof.
  revert pos; induction n as [|n IH]; intros pos.
  - constructor.
  - rewrite random_string_S. cbn [fst]. constructor; [|apply IH].
    apply nth_In. apply Nat.mod_upper_bound. discriminate.
Qed.

Lemma random_chars_alnum (c : char) :
  In c RANDOM_STRING_CHARS -> ascii_alnum c = true.
Proof.
  assert (H : forallb ascii_alnum RANDOM_STRING_CHARS = true) by reflexivity.
  rewrite forallb_forall in H. apply H.
Qed.

Lemma random_string_alnum (tape : nat -> nat) (n pos : nat) :
  Forall (fun c => ascii_alnum c = true) (fst (random_string tape n pos)).
Proof.
  eapply List.Forall_impl; [|apply random_string_chars].
  intros c; apply random_chars_alnum.
Qed.

Lemma alnum_not (c x : char) :
  ascii_alnum x = false -> forall r, Forall (fun c => ascii_alnum c = true) r ->
  ~ In x r.
Proof.
  intros Hx r Hr Hin. rewrite List.Forall_forall in Hr.
  apply Hr in Hin. congruence.
Qed.

Lemma get_alternative_stem_eq (tape : nat -> nat) (st : str) (n : nat)
    (sep : str) (pos : nat) :
  get_alternative_stem tape st n sep pos =
  (st ++ sep ++ fst (random_string tape n pos), (pos + n)%nat).
Proof.
  unfold get_alternative_stem.
  pose proof (random_string_snd tape n pos) as H.
  destruct (random_string tape n pos); simpl in *. now subst.
Qed.

(** ** [with_stem] on the candidates of the resolver *)

Lemma In_drop (c : char) (s : str) (k : nat) : In c (drop k s) -> In c s.
Proof.
  revert k; induction s as [|x s IH]; intros [|k]; simpl; try tauto.
  intros H; right; eauto.
Qed.

Lemma name_component (p : Path) :
  wf_path p -> name p <> [] -> component (name p).
Proof.
  intros [_ Ht] Hn. unfold name in *.
  destruct (path_tail p) as [|x t] eqn:E; [simpl in Hn; congruence|].
  rewrite List.Forall_forall in Ht. apply Ht.
  pose proof (@app_removelast_last _ (x :: t) [] ltac:(discriminate)) as H.
  rewrite H at 2. apply in_or_app. right. now left.
Qed.

Lemma tail_snoc_name (p : Path) :
  name p <> [] -> path_tail p = removelast (path_tail p) ++ [name p].
Proof.
  unfold name. intros Hn.
  destruct (path_tail p) as [|x t] eqn:E; [simpl in Hn; congruence|].
  apply app_removelast_last. discriminate.
Qed.

Lemma stem_no_slash (p : Path) :
  wf_path p -> name p <> [] -> ~ In c_slash (stem p).
Proof.
  intros Hwf Hn Hin. destruct (name_component p Hwf Hn) as (_ & _ & Hs).
  apply Hs. rewrite <- stem_suffix. apply in_or_app. now left.
Qed.

Lemma suffix_no_slash (p : Path) :
  wf_path p -> name p <> [] -> ~ In c_slash (suffix p).
Proof.
  intros Hwf Hn Hin. destruct (name_component p Hwf Hn) as (_ & _ & Hs).
  apply Hs. rewrite <- stem_suffix. apply in_or_app. now right.
Qed.

Lemma stem_nonempty (p : Path) : name p <> [] -> stem p <> [].
Proof.
  intros Hn. destruct (suffix_shape p) as [E | (ext & _ & _ & _ & H)];
    [|assumption].
  intros Hs. apply Hn. rewrite <- stem_suffix, E, Hs. reflexivity.
Qed.

Lemma with_stem_ok (p : Path) (st : str) :
  wf_path p -> name p <> [] -> ~ In c_slash st -> (2 <= length st)%nat ->
  with_stem p st =
  Ok (MkPath (path_root p) (removelast (path_tail p) ++ [st ++ suffix p])).
Proof.
  intros Hwf Hn Hs Hl. unfold with_stem, with_name.
  replace (str_eqb (name p) []) with false
    by (symmetry; now apply str_eqb_neq).
  replace (str_eqb (st ++ suffix p) []) with false.
  2:{ symmetry; apply str_eqb_neq. destruct st; [simpl in Hl; lia | discriminate]. }
  replace (char_in c_slash (st ++ suffix p)) with false.
  2:{ symmetry; apply char_in_false. intros H. apply in_app_or in H as [H|H];
      [tauto | now apply (suffix_no_slash p Hwf Hn)]. }
  replace (str_eqb (st ++ suffix p) dot) with false.
  2:{ symmetry; apply str_eqb_neq. intros E.
      apply (f_equal (@length _)) in E. rewrite length_app in E.
      simpl in E. lia. }
  reflexivity.
Qed.

Lemma alt_stem_no_slash (tape : nat -> nat) (origin : Path) (k q : nat) :
  wf_path origin -> name origin <> [] ->
  ~ In c_slash (alt_stem tape origin k q).
Proof.
  intros Hwf Hn H. unfold alt_stem in H.
  apply in_app_or in H as [H|H].
  - apply In_take in H. now apply (stem_no_slash origin).
  - apply in_app_or in H as [H|H].
    + simpl in H. destruct H as [H|[]]. discriminate H.
    + revert H. apply (alnum_not c_slash); [reflexivity|].
      apply random_string_alnum.
Qed.

Lemma alt_stem_length (tape : nat -> nat) (origin : Path) (k q : nat) :
  (k <= length (stem origin))%nat ->
  length (alt_stem tape origin k q) = (k + 8)%nat.
Proof.
  intros Hk. unfold alt_stem.
  rewrite !length_app, length_take, random_string_length.
  change (length default_sep) with 1%nat. unfold default_random_length. lia.
Qed.

Lemma with_stem_alt (tape : nat -> nat) (origin : Path) (k q : nat) :
  wf_path origin -> name origin <> [] -> (k <= length (stem origin))%nat ->
  with_stem origin (alt_stem tape origin k q) =
  Ok (MkPath (path_root origin)
        (removelast (path_tail origin) ++
         [alt_stem tape origin k q ++ suffix origin])).
Proof.
  intros Hwf Hn Hk. apply with_stem_ok; auto.
  - now apply alt_stem_no_slash.
  - rewrite alt_stem_length by assumption. lia.
Qed.

Lemma len_candidate (tape : nat -> nat) (origin : Path) (k q : nat) :
  (k <= length (stem origin))%nat ->
  len (path_str (MkPath (path_root origin)
         (removelast (path_tail origin) ++
          [alt_stem tape origin k q ++ suffix origin]))) =
  len (dir_text (path_root origin) (removelast (path_tail origin))) +
  Z.of_nat k + 8 + len (suffix origin).
Proof.
  intros Hk. rewrite path_str_snoc.
  - rewrite !len_app. unfold len at 2.
    rewrite alt_stem_length by assumption. lia.
  - intros E. apply (f_equal (@length _)) in E.
    rewrite length_app, alt_stem_length in E by assumption. simpl in E. lia.
Qed.

(** ** The loop of [get_available_filename] *)

Section Loop.

Variable exists_ : str -> result bool.
Variable tape : nat -> nat.
Variable origin : Path.
Variable max_len : Z.
Hypothesis Hwf : wf_path origin.
Hypothesis Hname : name origin <> [].

Lemma alt_stem_full (q : nat) :
  stem origin ++ default_sep ++ fst (random_string tape default_random_length q)
  = alt_stem tape origin (length (stem origin)) q.
Proof. unfold alt_stem. now rewrite firstn_all. Qed.

Lemma with_stem_candidate (k q : nat) :
  (k <= length (stem origin))%nat ->
  with_stem origin (alt_stem tape origin k q) = Ok (candidate tape origin k q).
Proof. intros Hk. now apply with_stem_alt. Qed.

Lemma len_candidate_str (k q : nat) :
  (k <= length (stem origin))%nat ->
  len (path_str (candidate tape origin k q)) =
  len (dir_text (path_root origin) (removelast (path_tail origin))) +
  Z.of_nat k + 8 + len (suffix origin).
Proof. apply len_candidate. Qed.

(** One iteration, with the calls that cannot fail evaluated. *)
Lemma available_loop_S (fuel : nat) (f : str) (pos : nat) :
  available_loop exists_ tape (S fuel) origin max_len f pos =
  match exists_ f with
  | Err e => Some (Err e)
  | Ok taken =>
      if taken || ((0 <? max_len) && (max_len <? len f)) then
        let f1 := path_str (candidate tape origin (length (stem origin)) pos) in
        if max_len <=? 0 then
          available_loop exists_ tape fuel origin max_len f1 (pos + 7)
        else if 0 <? len f1 - max_len then
          let k := Z.to_nat (len (stem origin) - (len f1 - max_len)) in
          if str_eqb (take k (stem origin)) [] then
            Some (Err (Raise SuspiciousFileOperation
                         (NoAvailableFilename (path_str origin))))
          else
            available_loop exists_ tape fuel origin max_len
              (path_str (candidate tape origin k (pos + 7))) (pos + 7 + 7)
        else available_loop exists_ tape fuel origin max_len f1 (pos + 7)
      else Some (Ok (f, pos))
  end.
Proof.
  cbn [available_loop].
  destruct (exists_ f) as [taken|e]; [|reflexivity].
  destruct (taken || _); [|reflexivity].
  rewrite get_alternative_stem_eq. cbv iota beta.
  rewrite alt_stem_full. rewrite with_stem_candidate; [|lia].
  cbv zeta. destruct (max_len <=? 0); [reflexivity|].
  destruct (0 <? _) eqn:Ht; [|reflexivity].
  set (k := Z.to_nat _).
  destruct (str_eqb (take k (stem origin)) []); [reflexivity|].
  rewrite get_alternative_stem_eq. cbv iota beta.
  fold (alt_stem tape origin k (pos + default_random_length)).
  rewrite with_stem_candidate; [reflexivity|].
  subst k. apply Z.ltb_lt in Ht. unfold len in *. lia.
Qed.

(** What a returned name is: the name the iteration started with, or a
    candidate made by the last iteration; it is free and within the
    budget. *)
Lemma available_loop_ok (fuel : nat) :
  forall f pos nm pos',
  available_loop exists_ tape fuel origin max_len f pos = Some (Ok (nm, pos')) ->
  ((nm = f /\ pos' = pos) \/ made tape origin max_len pos nm pos') /\
  exists_ nm = Ok false /\
  (0 < max_len -> len nm <= max_len).
Proof.
  induction fuel as [|fuel IH]; intros f pos nm pos' H; [discriminate|].
  rewrite available_loop_S in H.
  destruct (exists_ f) as [taken|e] eqn:Ex; [|discriminate].
  destruct (taken || _) eqn:C.
  2:{ injection H as -> ->. apply orb_false_iff in C as [-> C].
      split; [now left|]. split; [assumption|].
      intros Hm. apply andb_false_iff in C as [C|C];
        [apply Z.ltb_ge in C | apply Z.ltb_ge in C]; lia. }
  clear C. cbv zeta in H.
  assert (Hs : (0 < length (stem origin))%nat).
  { pose proof (stem_nonempty origin Hname). destruct (stem origin);
      [congruence | simpl; lia]. }
  (* a name made from the whole stem at [pos] *)
  assert (Full : forall nm pos',
    available_loop exists_ tape fuel origin max_len
      (path_str (candidate tape origin (length (stem origin)) pos)) (pos + 7)
      = Some (Ok (nm, pos')) ->
    (((nm = f /\ pos' = pos) \/ made tape origin max_len pos nm pos') /\
     exists_ nm = Ok false /\ (0 < max_len -> len nm <= max_len))).
  { intros nm0 pos0 H0. apply IH in H0 as ([[-> ->] | M] & He & Hb);
      (split; [right | split; assumption]).
    - exists (length (stem origin)), pos, (candidate tape origin (length (stem origin)) pos).
      repeat split; try lia. now apply with_stem_candidate.
    - destruct M as (k & q & p & Hk & Hq & Hp & Hw & Hn & Hc).
      exists k, q, p. repeat split; try tauto; try lia.
      all: intros Hlt; apply Hc in Hlt; lia. }
  destruct (max_len <=? 0) eqn:Hm; [now apply Full|].
  destruct (0 <? _) eqn:Ht; [|now apply Full].
  apply Z.ltb_lt in Ht. apply Z.leb_gt in Hm.
  set (k := Z.to_nat _) in H.
  destruct (str_eqb (take k (stem origin)) []) eqn:Ek; [discriminate|].
  apply str_eqb_neq in Ek.
  assert (Hk : (0 < k < length (stem origin))%nat).
  { split.
    - destruct k; [now simpl in Ek | lia].
    - subst k. unfold len in *. lia. }
  apply IH in H as ([[-> ->] | M] & He & Hb);
    (split; [right | split; assumption]).
  - exists k, (pos + 7)%nat, (candidate tape origin k (pos + 7)).
    repeat split; try lia.
    + apply with_stem_candidate; lia.
    + rewrite len_candidate_str by lia.
      pose proof (len_candidate_str (length (stem origin)) pos
                    ltac:(lia)) as L1.
      unfold len in *. subst k. lia.
  - destruct M as (k' & q & p & Hk' & Hq & Hp & Hw & Hn & Hc).
    exists k', q, p. repeat split; try tauto; try lia.
    all: intros Hlt; apply Hc in Hlt; lia.
Qed.

(** The only exceptions of the loop: one raised by [exists], or the
    exhaustion error, which needs a positive budget. *)
Lemma available_loop_err (fuel : nat) :
  forall f pos e,
  available_loop exists_ tape fuel origin max_len f pos = Some (Err e) ->
  (exists n, exists_ n = Err e) \/
  (0 < max_len /\
   e = Raise SuspiciousFileOperation (NoAvailableFilename (path_str origin))).
Proof.
  induction fuel as [|fuel IH]; intros f pos e H; [discriminate|].
  rewrite available_loop_S in H.
  destruct (exists_ f) as [taken|e0] eqn:Ex.
  2:{ injection H as ->. left. eauto. }
  destruct (taken || _); [|discriminate]. cbv zeta in H.
  destruct (max_len <=? 0) eqn:Hm; [eauto|]. apply Z.leb_gt in Hm.
  destruct (0 <? _); [|eauto].
  destruct (str_eqb _ []); [|eauto].
  injection H as <-. right. split; [lia | reflexivity].
Qed.

End Loop.

(** ** NameResolver *)

Lemma validate_file_name_err (filename : str) (allow : bool) (e : exn) :
  validate_file_name filename allow = Err e ->
  exc_type e = SuspiciousFileOperation.
Proof.
  unfold validate_file_name.
  destruct (str_in (name (parse filename)) _) eqn:En; [now intros [= <-]|].
  destruct allow.
  - destruct (_ || _); now intros [= <-].
  - destruct (parts (parse filename)) as [|p0 ps] eqn:Ep.
    + exfalso. unfold parts in Ep.
      assert (Et : path_tail (parse filename) = [])
        by (destruct (path_root (parse filename)); [assumption | discriminate]).
      unfold name in En. rewrite Et in En. discriminate En.
    + destruct (negb _); now intros [= <-].
Qed.

Lemma check_origin_err (origin : Path) (e : exn) :
  check_origin origin = Err e ->
  exc_type e = SuspiciousFileOperation /\
  forall o, exc_msg e <> NoAvailableFilename o.
Proof.
  unfold check_origin. destruct (str_in dotdot (parts origin)).
  - intros [= <-]. split; [reflexivity | discriminate].
  - intros H. split; [eapply validate_file_name_err; eassumption|].
    revert H. unfold validate_file_name.
    destruct (str_in _ _); [intros [= <-]; discriminate|].
    destruct (parts _); [intros [= <-]; discriminate|].
    destruct (negb _); [intros [= <-]; discriminate | discriminate].
Qed.

Lemma check_origin_name (origin : Path) (x : str) :
  check_origin origin = Ok x -> name origin <> [].
Proof.
  unfold check_origin. destruct (str_in dotdot (parts origin)); [discriminate|].
  intros H E. rewrite E in H. discriminate H.
Qed.

(** C5: with a positive budget, a returned name is at most [max_len]
    long; it is the desired name itself or the origin with its stem
    replaced by a nonempty prefix [take k] of the original stem, the
    separator and seven characters drawn at tape positions [q .. q+6].
    When the stem was cut ([k] below its length) the draws are fresh,
    after the seven of the uncut candidate, and the name has length
    [max_len] exactly. *)
Theorem available_name_within_budget (exists_ : str -> result bool)
    (tape : nat -> nat) (fuel : nat) (filename : str) (max_len : Z)
    (pos : nat) (nm : str) (pos' : nat) :
  0 < max_len ->
  get_available_filename exists_ tape fuel filename max_len pos
    = Some (Ok (nm, pos')) ->
  len nm <= max_len /\
  (nm = filename \/
   exists k q,
     (0 < k <= length (stem (parse filename)))%nat /\ (pos <= q)%nat /\
     with_stem (parse filename) (alt_stem tape (parse filename) k q)
       = Ok (candidate tape (parse filename) k q) /\
     nm = path_str (candidate tape (parse filename) k q) /\
     ((k < length (stem (parse filename)))%nat ->
      (pos + 7 <= q)%nat /\ len nm = max_len)).
Proof.
  intros Hm H. unfold get_available_filename in H.
  destruct (check_origin (parse filename)) as [x|e] eqn:Ec; [|discriminate].
  pose proof (check_origin_name _ _ Ec) as Hn.
  pose proof (parse_wf filename) as Hwf.
  apply available_loop_ok in H as (Hshape & _ & Hb); [|assumption..].
  split; [auto|].
  destruct Hshape as [[-> _] | (k & q & p & Hk & Hq & _ & Hw & -> & Hc)];
    [now left | right].
  exists k, q.
  rewrite with_stem_candidate in Hw by (assumption || lia).
  injection Hw as <-.
  split; [lia|]. split; [lia|].
  split; [apply with_stem_candidate; (assumption || lia)|].
  split; [reflexivity|].
  intros Hlt. destruct (Hc Hlt) as (? & _ & ?). split; assumption.
Qed.

Example available_name_truncated :
  get_available_filename (fun _ => Ok false) tape_stride 5
    (u "abcdefghijklmnop.txt") 15 0
  = Some (Ok (u "abc_07elszG.txt", 14%nat)).
Proof. reflexivity. Qed.

Lemma available_name_within_budget_witness :
  len (u "abc_07elszG.txt") <= 15 /\
  (u "abc_07elszG.txt" = u "abcdefghijklmnop.txt" \/
   exists k q,
     (0 < k <= length (stem (parse (u "abcdefghijklmnop.txt"))))%nat /\
     (0 <= q)%nat /\
     with_stem (parse (u "abcdefghijklmnop.txt"))
       (alt_stem tape_stride (parse (u "abcdefghijklmnop.txt")) k q)
       = Ok (candidate tape_stride (parse (u "abcdefghijklmnop.txt")) k q) /\
     u "abc_07elszG.txt"
       = path_str (candidate tape_stride (parse (u "abcdefghijklmnop.txt")) k q) /\
     ((k < length (stem (parse (u "abcdefghijklmnop.txt"))))%nat ->
      (0 + 7 <= q)%nat /\ len (u "abc_07elszG.txt") = 15)).
Proof.
  apply (available_name_within_budget (fun _ => Ok false) tape_stride 5
           (u "abcdefghijklmnop.txt") 15 0 (u "abc_07elszG.txt") 14).
  - lia.
  - reflexivity.
Defined.

(** C6: when only ["x.txt"] exists, resolving ["x.txt"] without a
    budget returns [x_], seven characters of [RANDOM_STRING_CHARS] (the
    ASCII letters and digits) and [.txt]: a name other than ["x.txt"].
    Two evaluations of the loop condition are enough. *)
Theorem collision_resolved_with_random_stem (ex : str -> bool)
    (tape : nat -> nat) (fuel pos : nat) :
  ex (u "x.txt") = true ->
  (forall n, n <> u "x.txt" -> ex n = false) ->
  (2 <= fuel)%nat ->
  exists r,
    get_available_filename (fun n => Ok (ex n)) tape fuel (u "x.txt") 0 pos
      = Some (Ok (u "x_" ++ r ++ u ".txt", (pos + 7)%nat)) /\
    length r = 7%nat /\
    Forall (fun c => In c RANDOM_STRING_CHARS /\ ascii_alnum c = true) r /\
    u "x_" ++ r ++ u ".txt" <> u "x.txt".
Proof.
  intros Hx Hother Hfuel.
  exists (fst (random_string tape default_random_length pos)).
  assert (Hneq : u "x_" ++ fst (random_string tape default_random_length pos)
                   ++ u ".txt" <> u "x.txt").
  { intros E. apply (f_equal (@length _)) in E.
    rewrite !length_app, random_string_length in E. simpl in E.
    unfold default_random_length in E. lia. }
  split; [|split; [apply random_string_length | split; [|exact Hneq]]].
  - destruct fuel as [|[|fuel]]; try lia.
    unfold get_available_filename.
    change (check_origin (parse (u "x.txt"))) with (@Ok str (u "x.txt")).
    cbv iota.
    assert (Hwf : wf_path (parse (u "x.txt"))) by apply parse_wf.
    assert (Hn : name (parse (u "x.txt")) <> []) by discriminate.
    rewrite available_loop_S by assumption.
    rewrite Hx. cbn [orb]. cbv zeta.
    change (0 <=? 0) with true. cbv iota.
    assert (Ef : path_str (candidate tape (parse (u "x.txt"))
                             (length (stem (parse (u "x.txt")))) pos)
                 = u "x_" ++ fst (random_string tape default_random_length pos)
                     ++ u ".txt").
    { unfold candidate. rewrite path_str_snoc.
      - unfold alt_stem.
        change (stem (parse (u "x.txt"))) with (u "x").
        change (suffix (parse (u "x.txt"))) with (u ".txt").
        simpl take. rewrite <- !app_assoc. reflexivity.
      - unfold alt_stem. change (stem (parse (u "x.txt"))) with (u "x").
        discriminate. }
    rewrite Ef.
    rewrite available_loop_S by assumption.
    rewrite (Hother _ Hneq). reflexivity.
  - pose proof (random_string_chars tape default_random_length pos) as Hc.
    eapply List.Forall_impl; [|exact Hc].
    intros c Hin. split; [assumption | now apply random_chars_alnum].
Qed.

Lemma collision_resolved_with_random_stem_witness :
  exists r,
    get_available_filename (fun n => Ok (str_eqb n (u "x.txt"))) tape_count 2
      (u "x.txt") 0 0
      = Some (Ok (u "x_" ++ r ++ u ".txt", (0 + 7)%nat)) /\
    length r = 7%nat /\
    Forall (fun c => In c RANDOM_STRING_CHARS /\ ascii_alnum c = true) r /\
    u "x_" ++ r ++ u ".txt" <> u "x.txt".
Proof.
  apply (collision_resolved_with_random_stem
           (fun n => str_eqb n (u "x.txt")) tape_count 2 0).
  - reflexivity.
  - intros n Hn. now apply str_eqb_neq.
  - lia.
Defined.

(** The test of the repository: the new name is eight characters
    longer. *)
Example test_available_name :
  get_available_filename (fun n => Ok (str_eqb n (u "some_file.txt")))
    tape_count 2 (u "some_file.txt") 0 0
  = Some (Ok (u "some_file_abcdefg.txt", 7%nat)).
Proof. reflexivity. Qed.

(** C9: without a budget ([max_len <= 0]) a finished call either
    returns a name for which [exists] is false, or raises the exception
    of the checks made before the loop; the exhaustion error is never
    raised. *)
Theorem no_exhaustion_without_budget (ex : str -> bool) (tape : nat -> nat)
    (fuel : nat) (filename : str) (max_len : Z) (pos : nat)
    (out : result (str * nat)) :
  max_len <= 0 ->
  get_available_filename (fun n => Ok (ex n)) tape fuel filename max_len pos
    = Some out ->
  match out with
  | Ok (nm, _) => ex nm = false
  | Err e =>
      check_origin (parse filename) = Err e /\
      forall o, exc_msg e <> NoAvailableFilename o
  end.
Proof.
  intros Hm H. unfold get_available_filename in H.
  destruct (check_origin (parse filename)) as [x|e0] eqn:Ec.
  - pose proof (check_origin_name _ _ Ec) as Hn.
    pose proof (parse_wf filename) as Hwf.
    destruct out as [[nm pos']|e].
    + apply available_loop_ok in H as (_ & He & _); [|assumption..].
      now injection He.
    + apply available_loop_err in H as [(n & Hx) | (Hpos & _)];
        [discriminate | lia | assumption..].
  - injection H as <-. split; [reflexivity|].
    eapply check_origin_err; eassumption.
Qed.

Lemma no_exhaustion_without_budget_witness :
  str_eqb (u "a_abcdefg.txt") (u "a.txt") = false.
Proof.
  apply (no_exhaustion_without_budget (fun n => str_eqb n (u "a.txt"))
           tape_count 2 (u "a.txt") (-1) 0
           (Ok (u "a_abcdefg.txt", 7%nat))).
  - lia.
  - reflexivity.
Defined.

(** With a budget the same one-letter stem is exhausted: the error that
    C9 excludes is reachable as soon as [max_len] is positive. *)
Example exhaustion_with_budget :
  get_available_filename (fun _ => Ok false) tape_count 1 (u "a.txt") 4 0
  = Some (Err (Raise SuspiciousFileOperation (NoAvailableFilename (u "a.txt")))).
Proof. reflexivity. Qed.

(** The loop does not end while every candidate exists: no result for
    any amount of fuel. *)
Lemma always_taken_never_returns (tape : nat -> nat) (fuel : nat) :
  forall f pos,
  available_loop (fun _ => Ok true) tape fuel (parse (u "a.txt")) 0 f pos = None.
Proof.
  induction fuel as [|fuel IH]; intros f pos; [reflexivity|].
  rewrite available_loop_S by (apply parse_wf || discriminate).
  cbn [orb]. cbv zeta. change (0 <=? 0) with true. cbv iota. apply IH.
Qed.

(** ** The exception classes *)

(** The separate messages of the failures that share the class. *)
Example failure_messages :
  raised (CallGetValidFilename ucd_ascii_sharp_s (u " .. "))
    = Some (Raise SuspiciousFileOperation (CouldNotDerive (u " .. "))) /\
  raised (CallValidateFileName (u "a/b") false)
    = Some (Raise SuspiciousFileOperation (IncludesPathElements (u "a/b"))) /\
  raised (CallValidateFileName (u "/a") true)
    = Some (Raise SuspiciousFileOperation (TraversalAttempt (u "/a"))) /\
  raised (CallSafeJoin (realpath_nolinks []) (u "/abc") [u "../def"])
    = Some (Raise SuspiciousFileOperation (NotSubpath (u "/def") (u "/abc"))) /\
  raised (CallGetAvailableFilename (fun _ => false) tape_count 1 (u "a/../b") 0 0)
    = Some (Raise SuspiciousFileOperation (TraversalDetected (u "a/.."))).
Proof. repeat split. Qed.

(** ** [FileSystemStorage.url] *)

(** C7, as the code has it: without a base URL ([None] or the empty
    string) [url] fails for every file name, with the error of
    [validate_file_name] in relative mode when the name does not pass
    it, and with [ValueError("Invalid base_url")] when it does. *)
Theorem url_without_base_url (_base_url : option str) (filename : str) :
  _base_url = None \/ _base_url = Some [] ->
  url _base_url filename =
  match validate_file_name filename true with
  | Err e => Err e
  | Ok _ => Err (Raise ValueError InvalidBaseUrl)
  end.
Proof.
  intros [-> | ->]; unfold url, base_url;
    destruct (validate_file_name filename true); reflexivity.
Qed.

Lemma url_without_base_url_witness :
  url None (u "some_file.txt") =
  match validate_file_name (u "some_file.txt") true with
  | Err e => Err e
  | Ok _ => Err (Raise ValueError InvalidBaseUrl)
  end.
Proof.
  apply (url_without_base_url None (u "some_file.txt")). left. reflexivity.
Defined.

(** C7, as the spec has it, fails: the name is checked first, so a
    traversal name gets the traversal error although no base URL is
    set. *)
Lemma url_unconfigured_reports_traversal :
  url None (u "a/../b") =
    Err (Raise SuspiciousFileOperation (TraversalAttempt (u "a/../b"))) /\
  url None (u "a/../b") <> Err (Raise ValueError InvalidBaseUrl).
Proof. split; [reflexivity | discriminate]. Qed.

(** The scenario of the spec and the test of the repository. *)
Example url_examples :
  url (Some (u "http://h/static/")) (u "a/b.txt") = Ok (u "http://h/static/a/b.txt") /\
  url None (u "some_file.txt") = Err (Raise ValueError InvalidBaseUrl).
Proof. split; reflexivity. Qed.

(** ** What the resolver leaves unchanged *)

Lemma candidate_wf (tape : nat -> nat) (origin : Path) (k q : nat) :
  wf_path origin -> name origin <> [] -> (k <= length (stem origin))%nat ->
  wf_path (candidate tape origin k q).
Proof.
  intros Hwf Hn Hk. pose proof Hwf as [Hroot Htl].
  split; [exact Hroot|]. unfold candidate; simpl.
  rewrite (tail_snoc_name origin Hn) in Htl.
  apply List.Forall_app in Htl as [Hdirs _].
  apply List.Forall_app. split; [assumption|].
  constructor; [|constructor].
  assert (Hl : length (alt_stem tape origin k q ++ suffix origin)
               = (k + 8 + length (suffix origin))%nat)
    by (rewrite length_app, alt_stem_length by assumption; lia).
  repeat split.
  - intros E. rewrite E in Hl. simpl in Hl. lia.
  - intros E. rewrite E in Hl. simpl in Hl. lia.
  - intros H. apply in_app_or in H as [H|H].
    + now apply (alt_stem_no_slash tape origin k q).
    + now apply (suffix_no_slash origin).
Qed.

Lemma suffix_nil_has_suffix (p : Path) :
  suffix p = [] -> has_suffix (name p) = false.
Proof.
  unfold suffix. destruct (has_suffix (name p)) eqn:H; [|reflexivity].
  intros E. exfalso. unfold has_suffix in H.
  apply andb_true_iff in H as [H1 H2]. apply Z.ltb_lt in H1, H2.
  apply (f_equal (@length _)) in E. rewrite length_drop in E.
  unfold len in *. simpl in E. lia.
Qed.

Lemma alt_stem_nonempty (tape : nat -> nat) (origin : Path) (k q : nat) :
  (k <= length (stem origin))%nat -> alt_stem tape origin k q <> [].
Proof.
  intros Hk E. apply (f_equal (@length _)) in E.
  rewrite alt_stem_length in E by assumption. simpl in E. lia.
Qed.

(** The suffix and the stem that pathlib reads off a candidate, for an
    origin whose name does not end in a dot. *)
Lemma candidate_suffix (tape : nat -> nat) (origin : Path) (k q : nat) :
  name origin <> [] -> (k <= length (stem origin))%nat ->
  ends_with_dot (name origin) = false ->
  suffix (candidate tape origin k q) = suffix origin /\
  stem (candidate tape origin k q) = alt_stem tape origin k q.
Proof.
  intros Hn Hk Hd. unfold candidate.
  destruct (suffix_shape origin) as [E | (ext & E & Hext & Hno & _)].
  - rewrite E, app_nil_r. apply suffix_of_plain.
    pose proof (suffix_nil_has_suffix origin E) as Hs.
    pose proof (no_suffix_no_inner_dot _ Hs Hd) as Hr.
    assert (Est : stem origin = name origin)
      by (unfold stem; now rewrite Hs).
    unfold alt_stem. rewrite Est, rfind_app.
    replace (rfind c_dot (default_sep ++
               fst (random_string tape default_random_length q))) with (-1).
    + simpl. now apply rfind_le0_take.
    + symmetry. apply rfind_none. intros H. apply in_app_or in H as [H|H].
      * simpl in H. destruct H as [H|[]]. discriminate H.
      * revert H. apply (alnum_not c_dot); [reflexivity|].
        apply random_string_alnum.
  - rewrite E. apply suffix_of_snoc; auto.
    now apply alt_stem_nonempty.
Qed.

(** C8, as the code has it: a returned name has the directory
    components of the desired name, and it is the desired name itself
    or its last component is a new stem (a nonempty prefix of the
    original stem, the separator, seven random characters) followed by
    the original suffix. When the desired name does not end in a dot,
    pathlib reads the same suffix off the returned name, and the new
    stem as its stem. *)
Theorem available_name_keeps_dirs_and_suffix (exists_ : str -> result bool)
    (tape : nat -> nat) (fuel : nat) (filename : str) (max_len : Z)
    (pos : nat) (nm : str) (pos' : nat) :
  get_available_filename exists_ tape fuel filename max_len pos
    = Some (Ok (nm, pos')) ->
  let origin := parse filename in
  let got := parse nm in
  parent got = parent origin /\
  (nm = filename \/
   exists k q, (0 < k <= length (stem origin))%nat /\
     name got = alt_stem tape origin k q ++ suffix origin) /\
  (ends_with_dot (name origin) = false ->
   suffix got = suffix origin /\
   (nm = filename \/
    exists k q, (0 < k <= length (stem origin))%nat /\
      stem got = alt_stem tape origin k q)).
Proof.
  intros H origin got. unfold get_available_filename in H. fold origin in H.
  destruct (check_origin origin) as [x|e] eqn:Ec; [|discriminate].
  pose proof (check_origin_name _ _ Ec) as Hn.
  pose proof (parse_wf filename) as Hwf. fold origin in Hwf.
  apply available_loop_ok in H as (Hshape & _ & _); [|assumption..].
  destruct Hshape as [[-> _] | (k & q & p & Hk & _ & _ & Hw & -> & _)].
  - subst got. fold origin. repeat split; auto.
  - rewrite with_stem_candidate in Hw by (assumption || lia).
    injection Hw as <-.
    assert (Eg : got = candidate tape origin k q).
    { subst got. apply parse_path_str. apply candidate_wf; (assumption || lia). }
    rewrite Eg. split; [|split].
    + unfold parent, candidate; simpl. now rewrite removelast_last.
    + right. exists k, q. split; [assumption|].
      unfold candidate. apply name_snoc.
    + intros Hd.
      destruct (candidate_suffix tape origin k q Hn ltac:(lia) Hd) as [Es Et].
      split; [assumption|]. right. exists k, q. split; assumption.
Qed.

Lemma available_name_keeps_dirs_and_suffix_witness :
  let origin := parse (u "d/./x.tar.gz") in
  let got := parse (u "d/x.tar_abcdefg.gz") in
  parent got = parent origin /\
  (u "d/x.tar_abcdefg.gz" = u "d/./x.tar.gz" \/
   exists k q, (0 < k <= length (stem origin))%nat /\
     name got = alt_stem tape_count origin k q ++ suffix origin) /\
  (ends_with_dot (name origin) = false ->
   suffix got = suffix origin /\
   (u "d/x.tar_abcdefg.gz" = u "d/./x.tar.gz" \/
    exists k q, (0 < k <= length (stem origin))%nat /\
      stem got = alt_stem tape_count origin k q)).
Proof.
  apply (available_name_keeps_dirs_and_suffix
           (fun n => Ok (str_eqb n (u "d/./x.tar.gz"))) tape_count 2
           (u "d/./x.tar.gz") 0 0 (u "d/x.tar_abcdefg.gz") 7).
  reflexivity.
Defined.

(** C8, as stated, fails for a name that ends in a dot: ["a."] has no
    suffix, and the name returned for it, ["a._abcdefg"], has the
    suffix ["._abcdefg"] and the stem ["a"]. *)
Lemma available_name_suffix_changes :
  get_available_filename (fun n => Ok (str_eqb n (u "a."))) tape_count 2
    (u "a.") 0 0 = Some (Ok (u "a._abcdefg", 7%nat)) /\
  suffix (parse (u "a.")) = [] /\
  suffix (parse (u "a._abcdefg")) = u "._abcdefg" /\
  stem (parse (u "a._abcdefg")) = u "a".
Proof. repeat split. Qed.

(** ** [FileSystemStorage.save] under a race *)

(** C3 fails on the code: [save] is given [max_len = 6]; ["ab.txt"]
    fits and is free when the name is resolved, another writer creates
    it before the exclusive write, and the retry resolves without the
    budget: the stored name has 14 characters. *)
Theorem save_retry_ignores_max_len :
  exists w',
    save (realpath_nolinks []) os_permits_all tape_count (u "/srv") 3 (u "ab.txt") [104%N; 105%N] 6
      (World {[ u "/srv" := Dir ]} 0
         [other_writer_creates (u "/srv/ab.txt")])
    = Some (Ok (u "ab_abcdefg.txt", w')) /\
    files w' !! u "/srv/ab_abcdefg.txt" = Some (File [104%N; 105%N]) /\
    len (u "ab_abcdefg.txt") = 14.
Proof.
  eexists. split; [vm_compute; reflexivity|]. split; reflexivity.
Qed.

(** Without the race the same call stores the name it was given. *)
Example save_without_race :
  exists w',
    save (realpath_nolinks []) os_permits_all tape_count (u "/srv") 3 (u "ab.txt") [] 6
      (World {[ u "/srv" := Dir ]} 0 [])
    = Some (Ok (u "ab.txt", w')).
Proof. eexists. vm_compute. reflexivity. Qed.

(** ** More on [validate_file_name] and the sanitizer *)

Lemma parse_single (x : str) :
  x <> [] -> x <> dot -> ~ In c_slash x -> parse x = MkPath [] [x].
Proof.
  intros H1 H2 H3. destruct x as [|c x]; [congruence|].
  apply (parse_path_str (MkPath [] [c :: x])).
  split; [now left|]. constructor; [|constructor]. repeat split; assumption.
Qed.

Lemma name_nil_tail (p : Path) :
  wf_path p -> (name p = [] <-> path_tail p = []).
Proof.
  intros [_ Ht]. unfold name. split.
  - intros E. destruct (path_tail p) as [|x t] eqn:Et; [reflexivity|].
    exfalso. rewrite List.Forall_forall in Ht.
    assert (Hin : In (List.last (x :: t) []) (x :: t)).
    { pose proof (@app_removelast_last _ (x :: t) [] ltac:(discriminate)) as H.
      rewrite H at 2. apply in_or_app. right. now left. }
    apply Ht in Hin as (Hne & _). congruence.
  - intros ->. reflexivity.
Qed.

Lemma name_in_tail (p : Path) : path_tail p <> [] -> In (name p) (path_tail p).
Proof.
  unfold name. intros H.
  rewrite (@app_removelast_last _ (path_tail p) [] H) at 2.
  apply in_or_app. right. now left.
Qed.

Lemma name_not_special (p : Path) :
  wf_path p -> path_tail p <> [] -> ~ In dotdot (path_tail p) ->
  str_in (name p) [[]; dot; dotdot] = false.
Proof.
  intros Hwf Ht Hd. apply str_in_false. simpl.
  pose proof (name_in_tail p Ht) as Hin.
  destruct Hwf as [_ Hc]. rewrite List.Forall_forall in Hc.
  destruct (Hc _ Hin) as (H1 & H2 & _).
  intros [E | [E | [E | []]]]; congruence.
Qed.

Lemma parts_dotdot (p : Path) :
  wf_path p -> (In dotdot (parts p) <-> In dotdot (path_tail p)).
Proof.
  intros [Hr _]. unfold parts.
  destruct Hr as [E | [E | E]]; rewrite E; simpl; [tauto | |];
    split; auto; intros [H|H]; auto; discriminate H.
Qed.

Lemma validate_relative_ok (filename : str) :
  path_tail (parse filename) <> [] -> path_root (parse filename) = [] ->
  ~ In dotdot (path_tail (parse filename)) ->
  validate_file_name filename true = Ok filename.
Proof.
  pose proof (parse_wf filename) as Hwf. intros Ht Hr Hd.
  unfold validate_file_name.
  rewrite (name_not_special _ Hwf Ht Hd).
  unfold is_absolute. rewrite Hr. simpl.
  replace (str_in dotdot (parts (parse filename))) with false; [reflexivity|].
  symmetry. apply str_in_false. now rewrite parts_dotdot.
Qed.

Lemma validate_relative_inv (filename x : str) :
  validate_file_name filename true = Ok x ->
  path_tail (parse filename) <> [] /\ path_root (parse filename) = [] /\
  ~ In dotdot (path_tail (parse filename)).
Proof.
  pose proof (parse_wf filename) as Hwf. unfold validate_file_name.
  destruct (str_in (name (parse filename)) _) eqn:En; [discriminate|].
  destruct (is_absolute (parse filename)) eqn:Ea; [discriminate|].
  destruct (str_in dotdot (parts (parse filename))) eqn:Ed; [discriminate|].
  intros _. apply str_in_false in En, Ed. rewrite parts_dotdot in Ed by assumption.
  unfold is_absolute in Ea. apply negb_false_iff, str_eqb_eq in Ea.
  repeat split; try assumption.
  intros Et. apply En. left. symmetry. now apply name_nil_tail.
Qed.

(** X1. In relative mode a name is accepted exactly when it parses to at
    least one component, has no root and has no [".."] component; an
    accepted name is returned as it was given. *)
Theorem validate_relative_accepts_iff (filename : str) :
  (path_tail (parse filename) <> [] /\ path_root (parse filename) = [] /\
   ~ In dotdot (path_tail (parse filename))) <->
  validate_file_name filename true = Ok filename.
Proof.
  split.
  - intros (Ht & Hr & Hd). now apply validate_relative_ok.
  - apply validate_relative_inv.
Qed.

Lemma validate_file_name_passes_through (filename : str) (a : bool) (x : str) :
  validate_file_name filename a = Ok x -> x = filename.
Proof.
  unfold validate_file_name. destruct (str_in _ _); [discriminate|].
  destruct a.
  - destruct (_ || _); [discriminate | now intros [= <-]].
  - destruct (parts _); [discriminate|].
    destruct (negb _); [discriminate | now intros [= <-]].
Qed.

Lemma kept_not_slash (ucd : unicode_data) (s : str) :
  isalnum ucd c_slash = false -> ~ In c_slash (re_sub_unsafe ucd s).
Proof.
  intros Hs Hin. unfold re_sub_unsafe in Hin.
  apply filter_In in Hin as [_ Hk].
  unfold kept, is_word in Hk. rewrite Hs in Hk. discriminate Hk.
Qed.

(** X2. For Unicode data in which the separator is not alphanumeric, a
    name that the sanitizer returns is one path component: it parses to
    itself and [validate_file_name] accepts it in both modes. *)
Theorem sanitized_name_is_one_component (ucd : unicode_data) (raw s : str) :
  isalnum ucd c_slash = false ->
  get_valid_filename ucd raw = Ok s ->
  parse s = MkPath [] [s] /\
  validate_file_name s false = Ok s /\
  validate_file_name s true = Ok s.
Proof.
  intros Hs H. unfold get_valid_filename in H.
  destruct (str_in _ _) eqn:E; [discriminate|]. injection H as <-.
  set (s := re_sub_unsafe ucd _) in *.
  apply str_in_false in E. simpl in E.
  assert (Hp : parse s = MkPath [] [s]).
  { apply parse_single; [intros H; apply E; auto .. |].
    now apply kept_not_slash. }
  assert (En : str_in s [[]; dot; dotdot] = false).
  { apply str_in_false. simpl. intros [H|[H|[H|[]]]]; apply E; auto. }
  split; [exact Hp|]. split.
  - unfold validate_file_name. rewrite Hp.
    change (name (MkPath [] [s])) with s. rewrite En.
    change (parts (MkPath [] [s])) with [s]. cbv iota beta.
    now rewrite str_eqb_refl.
  - apply validate_relative_ok; rewrite Hp; simpl;
      [discriminate | reflexivity |]. intros [H|[]]. apply E. auto.
Qed.

Lemma sanitized_name_is_one_component_witness :
  parse (u "test_some_file.jpg") = MkPath [] [u "test_some_file.jpg"] /\
  validate_file_name (u "test_some_file.jpg") false = Ok (u "test_some_file.jpg") /\
  validate_file_name (u "test_some_file.jpg") true = Ok (u "test_some_file.jpg").
Proof.
  apply (sanitized_name_is_one_component ucd_ascii_sharp_s
           (u "  test some file.jpg ")); reflexivity.
Defined.

(** ** More on the resolver *)

Lemma check_origin_ok_iff (origin : Path) :
  wf_path origin ->
  ((path_tail origin <> [] /\ ~ In dotdot (path_tail origin)) <->
   check_origin origin = Ok (name origin)).
Proof.
  intros Hwf. unfold check_origin. split.
  - intros (Ht & Hd).
    replace (str_in dotdot (parts origin)) with false
      by (symmetry; apply str_in_false; now rewrite parts_dotdot).
    pose proof (name_in_tail origin Ht) as Hin.
    destruct Hwf as [_ Hc]. rewrite List.Forall_forall in Hc.
    destruct (Hc _ Hin) as (H1 & H2 & H3).
    assert (En : str_in (name origin) [[]; dot; dotdot] = false).
    { apply str_in_false. simpl. intros [E|[E|[E|[]]]]; congruence. }
    unfold validate_file_name. rewrite (parse_single _ H1 H2 H3).
    change (name (MkPath [] [name origin])) with (name origin). rewrite En.
    change (parts (MkPath [] [name origin])) with [name origin].
    cbv iota beta. now rewrite str_eqb_refl.
  - destruct (str_in dotdot (parts origin)) eqn:Ed; [discriminate|].
    intros H. apply str_in_false in Ed. rewrite parts_dotdot in Ed by assumption.
    split; [|assumption]. intros Et.
    apply (check_origin_name origin (name origin)).
    + unfold check_origin.
      replace (str_in dotdot (parts origin)) with false; [exact H|].
      symmetry. apply str_in_false. now rewrite parts_dotdot.
    + now apply name_nil_tail.
Qed.

Lemma check_origin_value (origin : Path) (x : str) :
  check_origin origin = Ok x -> x = name origin.
Proof.
  unfold check_origin. destruct (str_in _ _); [discriminate|].
  apply validate_file_name_passes_through.
Qed.

Lemma resolver_reaches_loop (exists_ : str -> result bool)
    (tape : nat -> nat) (fuel : nat) (filename : str) (max_len : Z)
    (pos : nat) :
  path_tail (parse filename) <> [] ->
  ~ In dotdot (path_tail (parse filename)) ->
  get_available_filename exists_ tape fuel filename max_len pos =
  available_loop exists_ tape fuel (parse filename) max_len filename pos.
Proof.
  intros Ht Hd. unfold get_available_filename.
  assert (H : check_origin (parse filename) = Ok (name (parse filename)))
    by (apply check_origin_ok_iff; [apply parse_wf | auto]).
  now rewrite H.
Qed.

(** X3. The resolver looks at the components only: a name with no
    component or with a [".."] component is refused with
    [SuspiciousFileOperation] before [exists] is called and whatever
    the fuel; every other name, absolute ones included, reaches the
    loop. *)
Theorem resolver_input_check (exists_ : str -> result bool)
    (tape : nat -> nat) (fuel : nat) (filename : str) (max_len : Z)
    (pos : nat) :
  let origin := parse filename in
  (path_tail origin <> [] /\ ~ In dotdot (path_tail origin) ->
   get_available_filename exists_ tape fuel filename max_len pos =
   available_loop exists_ tape fuel origin max_len filename pos) /\
  (path_tail origin = [] \/ In dotdot (path_tail origin) ->
   exists e, exc_type e = SuspiciousFileOperation /\
     check_origin origin = Err e /\
     get_available_filename exists_ tape fuel filename max_len pos
       = Some (Err e)).
Proof.
  intros origin. pose proof (parse_wf filename) as Hwf. fold origin in Hwf.
  unfold get_available_filename. fold origin. split.
  - intros H. apply check_origin_ok_iff in H; [|assumption]. now rewrite H.
  - intros H. destruct (check_origin origin) as [x|e] eqn:Ec.
    + exfalso. pose proof (check_origin_value _ _ Ec) as ->.
      apply check_origin_ok_iff in Ec as (Ht & Hd); [|assumption].
      destruct H; contradiction.
    + exists e. repeat split. eapply check_origin_err; eassumption.
Qed.

Lemma resolver_input_check_witness :
  exists e, exc_type e = SuspiciousFileOperation /\
    check_origin (parse (u "a/../b.txt")) = Err e /\
    get_available_filename (fun _ => Err (Raise NotImplementedError NoMessage))
      tape_count 0 (u "a/../b.txt") 0 0 = Some (Err e).
Proof.
  apply (resolver_input_check (fun _ => Err (Raise NotImplementedError NoMessage))
           tape_count 0 (u "a/../b.txt") 0 0).
  right. simpl. auto.
Defined.

(** X4. A name that passes the input check, does not exist and fits the
    budget (or has none) is returned as it was given, at the first
    evaluation of the loop condition and without a random draw. *)
Theorem free_name_returned_unchanged (exists_ : str -> result bool)
    (tape : nat -> nat) (fuel : nat) (filename : str) (max_len : Z)
    (pos : nat) :
  path_tail (parse filename) <> [] ->
  ~ In dotdot (path_tail (parse filename)) ->
  exists_ filename = Ok false ->
  max_len <= 0 \/ len filename <= max_len ->
  get_available_filename exists_ tape (S fuel) filename max_len pos
    = Some (Ok (filename, pos)).
Proof.
  intros Ht Hd Hx Hb.
  rewrite (resolver_reaches_loop exists_ tape (S fuel) filename max_len pos Ht Hd).
  cbn [available_loop]. rewrite Hx.
  replace ((0 <? max_len) && (max_len <? len filename)) with false;
    [reflexivity|].
  symmetry. apply andb_false_iff.
  destruct Hb; [left; apply Z.ltb_ge | right; apply Z.ltb_ge]; lia.
Qed.

Lemma free_name_returned_unchanged_witness :
  get_available_filename (fun _ => Ok false) tape_count 1 (u "a.txt") 0 0
    = Some (Ok (u "a.txt", 0%nat)).
Proof.
  apply (free_name_returned_unchanged (fun _ => Ok false) tape_count 0
           (u "a.txt") 0 0).
  - discriminate.
  - simpl. intros [H|[]]. discriminate H.
  - reflexivity.
  - left. lia.
Defined.

Lemma Forall_removelast (P : str -> Prop) (l : list str) :
  Forall P l -> Forall P (removelast l).
Proof.
  induction 1 as [|x l Hx Hl IH]; simpl; [constructor|].
  destruct l; [constructor | constructor; assumption].
Qed.

Lemma In_removelast (x : str) (l : list str) : In x (removelast l) -> In x l.
Proof.
  induction l as [|y l IH]; simpl; [tauto|].
  destruct l; [simpl; tauto|]. intros [H|H]; [now left | right; auto].
Qed.

Lemma resolver_ok_facts (exists_ : str -> result bool)
    (tape : nat -> nat) (fuel : nat) (filename : str) (max_len : Z)
    (pos : nat) (nm : str) (pos' : nat) :
  get_available_filename exists_ tape fuel filename max_len pos
    = Some (Ok (nm, pos')) ->
  exists_ nm = Ok false /\ (pos <= pos')%nat /\
  path_root (parse nm) = path_root (parse filename) /\
  path_tail (parse nm) <> [] /\ ~ In dotdot (path_tail (parse nm)).
Proof.
  intros H. unfold get_available_filename in H.
  destruct (check_origin (parse filename)) as [x|e] eqn:Ec; [|discriminate].
  pose proof (check_origin_name _ _ Ec) as Hn.
  pose proof (parse_wf filename) as Hwf.
  pose proof (check_origin_value _ _ Ec) as ->.
  apply check_origin_ok_iff in Ec as (Ht & Hd); [|assumption].
  apply available_loop_ok in H as (Hshape & He & _); [|assumption..].
  split; [assumption|].
  destruct Hshape as [[-> ->] | (k & q & p & Hk & Hq & -> & Hw & -> & _)].
  - repeat split; auto.
  - rewrite with_stem_candidate in Hw by (assumption || lia).
    injection Hw as <-.
    rewrite parse_path_str by (apply candidate_wf; (assumption || lia)).
    split; [lia|]. split; [reflexivity|].
    unfold candidate; simpl. split.
    + intros E. apply app_eq_nil in E as [_ E]. discriminate E.
    + intros Hin. apply in_app_or in Hin as [Hin|[Hin|[]]].
      * apply Hd. now apply In_removelast.
      * apply (f_equal (@length _)) in Hin.
        rewrite length_app, alt_stem_length in Hin by lia. simpl in Hin. lia.
Qed.

(** X5. Whatever the budget, a returned name is one for which [exists]
    answered false; the tape only moves forward; and the name passes
    the input check of the resolver again, with the root of the desired
    name. *)
Theorem returned_name_is_free_and_valid (exists_ : str -> result bool)
    (tape : nat -> nat) (fuel : nat) (filename : str) (max_len : Z)
    (pos : nat) (nm : str) (pos' : nat) :
  get_available_filename exists_ tape fuel filename max_len pos
    = Some (Ok (nm, pos')) ->
  exists_ nm = Ok false /\ (pos <= pos')%nat /\
  path_root (parse nm) = path_root (parse filename) /\
  path_tail (parse nm) <> [] /\ ~ In dotdot (path_tail (parse nm)).
Proof. apply resolver_ok_facts. Qed.

Lemma returned_name_is_free_and_valid_witness :
  (fun n => Ok (str_eqb n (u "/srv/x.txt"))) (u "/srv/x_abcdefg.txt") = Ok false /\
  (0 <= 7)%nat /\
  path_root (parse (u "/srv/x_abcdefg.txt")) = path_root (parse (u "/srv/x.txt")) /\
  path_tail (parse (u "/srv/x_abcdefg.txt")) <> [] /\
  ~ In dotdot (path_tail (parse (u "/srv/x_abcdefg.txt"))).
Proof.
  apply (returned_name_is_free_and_valid
           (fun n => Ok (str_eqb n (u "/srv/x.txt"))) tape_count 2
           (u "/srv/x.txt") 0 0 (u "/srv/x_abcdefg.txt") 7).
  reflexivity.
Defined.

Lemma len_path_str_origin (origin : Path) :
  name origin <> [] ->
  len (path_str origin) =
  len (dir_text (path_root origin) (removelast (path_tail origin))) +
  len (stem origin) + len (suffix origin).
Proof.
  intros Hn. destruct origin as [root tl].
  pose proof (tail_snoc_name (MkPath root tl) Hn) as E. simpl in E.
  rewrite E at 1. rewrite path_str_snoc by assumption.
  rewrite len_app. rewrite <- (stem_suffix (MkPath root tl)) at 1.
  rewrite len_app. simpl. lia.
Qed.

(** X6. Without a budget, when the desired name exists and the first
    candidate does not, the second evaluation of the loop condition
    returns that candidate: the path with the stem followed by the
    separator and the seven characters drawn at [pos]. It is eight
    characters longer than the desired path printed by pathlib. *)
Theorem first_candidate_returned (exists_ : str -> result bool)
    (tape : nat -> nat) (fuel : nat) (filename : str) (max_len : Z)
    (pos : nat) :
  let origin := parse filename in
  let cand := path_str (candidate tape origin (length (stem origin)) pos) in
  path_tail origin <> [] -> ~ In dotdot (path_tail origin) ->
  max_len <= 0 ->
  exists_ filename = Ok true -> exists_ cand = Ok false ->
  get_available_filename exists_ tape (S (S fuel)) filename max_len pos
    = Some (Ok (cand, (pos + 7)%nat)) /\
  len cand = len (path_str origin) + 8.
Proof.
  intros origin cand Ht Hd Hm Hx Hc.
  pose proof (parse_wf filename) as Hwf. fold origin in Hwf.
  assert (Hn : name origin <> [])
    by (intros E; apply Ht; now apply name_nil_tail).
  split.
  - rewrite (resolver_reaches_loop exists_ tape (S (S fuel)) filename max_len
               pos Ht Hd). fold origin.
    rewrite available_loop_S by assumption. rewrite Hx. cbn [orb]. cbv zeta.
    replace (max_len <=? 0) with true by (symmetry; apply Z.leb_le; lia).
    fold cand. rewrite available_loop_S by assumption. rewrite Hc. cbn [orb].
    replace (0 <? max_len) with false by (symmetry; apply Z.ltb_ge; lia).
    reflexivity.
  - subst cand. rewrite len_candidate_str by lia.
    rewrite len_path_str_origin by assumption. unfold len. lia.
Qed.

Lemma first_candidate_returned_witness :
  get_available_filename (fun n => Ok (str_eqb n (u "some_file.txt")))
    tape_count 2 (u "some_file.txt") 0 0
    = Some (Ok (path_str (candidate tape_count (parse (u "some_file.txt"))
                            (length (stem (parse (u "some_file.txt")))) 0),
                (0 + 7)%nat)) /\
  len (path_str (candidate tape_count (parse (u "some_file.txt"))
                   (length (stem (parse (u "some_file.txt")))) 0))
    = len (path_str (parse (u "some_file.txt"))) + 8.
Proof.
  apply (first_candidate_returned (fun n => Ok (str_eqb n (u "some_file.txt")))
           tape_count 0 (u "some_file.txt") 0 0).
  - discriminate.
  - simpl. intros [H|[]]. discriminate H.
  - lia.
  - reflexivity.
  - reflexivity.
Defined.

Lemma exhaustion_first_iteration (exists_ : str -> result bool)
    (tape : nat -> nat) (fuel : nat) (filename : str) (max_len : Z)
    (pos : nat) (taken : bool) :
  let origin := parse filename in
  path_tail origin <> [] -> ~ In dotdot (path_tail origin) ->
  exists_ filename = Ok taken ->
  taken = true \/ max_len < len filename ->
  0 < max_len <= len (path_str origin) - len (stem origin) + 8 ->
  get_available_filename exists_ tape (S fuel) filename max_len pos
    = Some (Err (Raise SuspiciousFileOperation
                   (NoAvailableFilename (path_str origin)))).
Proof.
  intros origin Ht Hd Hx Hc Hm.
  pose proof (parse_wf filename) as Hwf. fold origin in Hwf.
  assert (Hn : name origin <> [])
    by (intros E; apply Ht; now apply name_nil_tail).
  rewrite (resolver_reaches_loop exists_ tape (S fuel) filename max_len pos Ht Hd). fold origin.
  rewrite available_loop_S by assumption. rewrite Hx.
  replace (taken || (0 <? max_len) && (max_len <? len filename)) with true.
  2:{ symmetry. apply orb_true_iff. destruct Hc as [-> | Hc]; [now left|].
      right. apply andb_true_iff. split; apply Z.ltb_lt; lia. }
  cbv zeta.
  replace (max_len <=? 0) with false by (symmetry; apply Z.leb_gt; lia).
  pose proof (len_candidate_str tape origin (length (stem origin)) pos
                ltac:(lia)) as L1.
  pose proof (len_path_str_origin origin Hn) as L0.
  pose proof (stem_nonempty origin Hn) as Hs.
  assert (0 < len (stem origin))
    by (unfold len; destruct (stem origin); [congruence | simpl; lia]).
  replace (0 <? _) with true by (symmetry; apply Z.ltb_lt; unfold len in *; lia).
  replace (Z.to_nat _) with 0%nat by (unfold len in *; lia).
  reflexivity.
Qed.

(** X7. With a positive budget, when the desired name exists or is too
    long and the budget leaves no room for a character of the stem
    before the separator, the random characters and the suffix, the
    first iteration raises the exhaustion error. *)
Theorem exhaustion_raised (exists_ : str -> result bool)
    (tape : nat -> nat) (fuel : nat) (filename : str) (max_len : Z)
    (pos : nat) (taken : bool) :
  let origin := parse filename in
  path_tail origin <> [] -> ~ In dotdot (path_tail origin) ->
  exists_ filename = Ok taken ->
  taken = true \/ max_len < len filename ->
  0 < max_len <= len (path_str origin) - len (stem origin) + 8 ->
  get_available_filename exists_ tape (S fuel) filename max_len pos
    = Some (Err (Raise SuspiciousFileOperation
                   (NoAvailableFilename (path_str origin)))).
Proof. apply exhaustion_first_iteration. Qed.

Lemma exhaustion_raised_witness :
  get_available_filename (fun _ => Ok false) tape_count 1 (u "a.txt") 4 0
    = Some (Err (Raise SuspiciousFileOperation
                   (NoAvailableFilename (path_str (parse (u "a.txt")))))).
Proof.
  apply (exhaustion_raised (fun _ => Ok false) tape_count 0 (u "a.txt") 4 0 false).
  - discriminate.
  - simpl. intros [H|[]]. discriminate H.
  - reflexivity.
  - right. reflexivity.
  - split; [lia | vm_compute; discriminate].
Defined.

(** X8. When no name exists, two evaluations of the loop condition
    always finish the call: it returns a name, or raises. *)
Theorem finishes_in_two_when_nothing_exists (exists_ : str -> result bool)
    (tape : nat -> nat) (filename : str) (max_len : Z) (pos : nat) :
  (forall n, exists_ n = Ok false) ->
  exists r,
    get_available_filename exists_ tape 2 filename max_len pos = Some r.
Proof.
  intros Hx. unfold get_available_filename.
  destruct (check_origin (parse filename)) as [x|e] eqn:Ec; [|eauto].
  pose proof (check_origin_name _ _ Ec) as Hn.
  pose proof (parse_wf filename) as Hwf.
  set (origin := parse filename) in *.
  rewrite available_loop_S by assumption. rewrite Hx. cbn [orb].
  destruct ((0 <? max_len) && (max_len <? len filename)) eqn:C; [|eauto].
  apply andb_true_iff in C as [C1 _]. apply Z.ltb_lt in C1. cbv zeta.
  replace (max_len <=? 0) with false by (symmetry; apply Z.leb_gt; lia).
  destruct (0 <? _) eqn:Ht.
  - set (k := Z.to_nat _).
    destruct (str_eqb (take k (stem origin)) []) eqn:Ek; [eauto|].
    apply str_eqb_neq in Ek. apply Z.ltb_lt in Ht.
    assert (Hk0 : (0 < k)%nat) by (destruct k; [now simpl in Ek | lia]).
    assert (Hk : (0 < k < length (stem origin))%nat)
      by (subst k; unfold len in *; lia).
    rewrite available_loop_S by assumption. rewrite Hx. cbn [orb].
    replace (_ && _) with false; [eauto|].
    symmetry. apply andb_false_iff. right. apply Z.ltb_ge.
    rewrite len_candidate_str by lia.
    pose proof (len_candidate_str tape origin (length (stem origin)) pos
                  ltac:(lia)) as L1.
    unfold len in *. subst k. lia.
  - apply Z.ltb_ge in Ht.
    rewrite available_loop_S by assumption. rewrite Hx. cbn [orb].
    replace (_ && _) with false; [eauto|].
    symmetry. apply andb_false_iff. right. apply Z.ltb_ge. lia.
Qed.

Lemma finishes_in_two_when_nothing_exists_witness :
  exists r,
    get_available_filename (fun _ => Ok false) tape_stride 2
      (u "abcdefghijklmnop.txt") 15 0 = Some r.
Proof.
  apply (finishes_in_two_when_nothing_exists (fun _ => Ok false) tape_stride
           (u "abcdefghijklmnop.txt") 15 0).
  reflexivity.
Defined.

(** ** More on [url] and [get_alternative_stem] *)

Lemma root_nil_relative (f : str) : path_root (parse f) = [] -> relative f.
Proof.
  unfold parse, relative. destruct f as [|a f]; [easy|].
  unfold splitroot. unfold char_eqb. destruct (N.eqb_spec a c_slash) as [->|Hne];
    [|easy].
  simpl negb. cbv iota.
  destruct f as [|b [|c f]]; simpl; try discriminate;
    repeat match goal with
           | |- context [N.eqb ?x c_slash] => destruct (N.eqb x c_slash)
           end; simpl; discriminate.
Qed.

Lemma lstrip_slash_relative (f : str) : relative f -> lstrip_slash f = f.
Proof.
  destruct f as [|c f]; [reflexivity|]. simpl. intros H.
  unfold char_eqb. now destruct (N.eqb_spec c c_slash).
Qed.

Lemma lstrip_slash_head (s : str) : relative (lstrip_slash s).
Proof.
  induction s as [|c s IH]; simpl; [exact I|].
  unfold char_eqb. destruct (N.eqb_spec c c_slash); [assumption | simpl; assumption].
Qed.

Lemma rstrip_slash_last (s b : str) : rstrip_slash s <> b ++ [c_slash].
Proof.
  unfold rstrip_slash. intros E.
  apply (f_equal (@rev _)) in E. rewrite rev_involutive, rev_unit in E.
  pose proof (lstrip_slash_head (rev s)) as H. rewrite E in H. simpl in H.
  congruence.
Qed.

(** X9. With a base URL set, [url] of a name that passes relative-mode
    validation is the base without its trailing slashes, one slash and
    the name as given: nothing is stripped from the name, because an
    accepted name does not start with a slash; so exactly one slash
    stands at the boundary. *)
Theorem url_joins_with_one_slash (base filename : str) :
  base <> [] ->
  validate_file_name filename true = Ok filename ->
  url (Some base) filename = Ok (rstrip_slash base ++ c_slash :: filename) /\
  relative filename /\ filename <> [] /\
  forall b, rstrip_slash base <> b ++ [c_slash].
Proof.
  intros Hb Hv.
  destruct (validate_relative_inv _ _ Hv) as (Ht & Hr & _).
  pose proof (root_nil_relative _ Hr) as Hrel.
  repeat split.
  - unfold url, base_url. rewrite Hv. simpl.
    destruct base; [congruence|]. simpl.
    now rewrite lstrip_slash_relative.
  - assumption.
  - intros ->. now apply Ht.
  - intros b. apply rstrip_slash_last.
Qed.

Lemma url_joins_with_one_slash_witness :
  url (Some (u "http://h/static//")) (u "a/b.txt")
    = Ok (rstrip_slash (u "http://h/static//") ++ c_slash :: u "a/b.txt") /\
  relative (u "a/b.txt") /\ u "a/b.txt" <> [] /\
  forall b, rstrip_slash (u "http://h/static//") <> b ++ [c_slash].
Proof.
  apply (url_joins_with_one_slash (u "http://h/static//") (u "a/b.txt")).
  - discriminate.
  - reflexivity.
Defined.

(** X10. For every stem, length and separator, [get_alternative_stem]
    returns the stem, the separator and [random_length] characters that
    are all ASCII letters or digits; the result is longer than the stem
    by the separator and [random_length], and the tape moves on by
    [random_length] draws. *)
Theorem get_alternative_stem_shape (tape : nat -> nat) (st : str)
    (random_length : nat) (sep : str) (pos : nat) :
  exists r,
    get_alternative_stem tape st random_length sep pos
      = (st ++ sep ++ r, (pos + random_length)%nat) /\
    length r = random_length /\
    Forall (fun c => In c RANDOM_STRING_CHARS /\ ascii_alnum c = true) r /\
    len (st ++ sep ++ r) = len st + len sep + Z.of_nat random_length.
Proof.
  exists (fst (random_string tape random_length pos)).
  split; [apply get_alternative_stem_eq|].
  split; [apply random_string_length|]. split.
  - eapply List.Forall_impl; [|apply random_string_chars].
    intros c Hin. split; [assumption | now apply random_chars_alnum].
  - rewrite !len_app. unfold len at 3. rewrite random_string_length. lia.
Qed.

(** ** [safe_join] on a file system without symbolic links *)

Lemma proper_tests (x : str) :
  proper x ->
  str_eqb x [] = false /\ str_eqb x dot = false /\ str_eqb x dotdot = false /\
  lstat_error x = None.
Proof.
  intros ((H1 & H2 & _) & H3 & H4). apply str_eqb_neq in H1, H2, H3. auto.
Qed.

Lemma walk_proper (l : list str) :
  forall st, Forall proper l -> realpath_walk st l = Ok (st ++ l).
Proof.
  induction l as [|x l IH]; intros st H; simpl.
  - now rewrite app_nil_r.
  - inversion H as [|? ? Hx Hl]; subst.
    destruct (proper_tests x Hx) as (-> & -> & -> & ->). simpl.
    rewrite IH by assumption. now rewrite <- app_assoc.
Qed.

Lemma walk_keeps (l : list str) :
  forall st st',
  Forall proper st -> Forall (fun x => ~ In c_slash x) l ->
  realpath_walk st l = Ok st' -> Forall proper st'.
Proof.
  induction l as [|x l IH]; intros st st' Hst Hl; simpl.
  - now intros [= <-].
  - inversion Hl as [|? ? Hx Hl']; subst.
    destruct (str_eqb x []) eqn:E1; [now apply IH|].
    destruct (str_eqb x dot) eqn:E2; [now apply IH|]. simpl.
    destruct (str_eqb x dotdot) eqn:E3;
      [apply IH; [now apply Forall_removelast | assumption]|].
    destruct (lstat_error x) eqn:E4; [discriminate|].
    apply IH; [|assumption].
    apply str_eqb_neq in E1, E2, E3.
    apply List.Forall_app. split; [assumption|].
    constructor; [|constructor]. repeat split; assumption.
Qed.

Lemma realpath_nolinks_shape (cwd : list str) (s r : str) :
  Forall proper cwd -> realpath_nolinks cwd s = Ok r ->
  exists st, Forall proper st /\ r = c_slash :: join_sep st.
Proof.
  intros Hc. unfold realpath_nolinks.
  destruct (realpath_walk _ (split_sep s)) as [st|e] eqn:E; [|discriminate].
  intros [= <-]. exists st. split; [|reflexivity].
  eapply walk_keeps; [| apply split_sep_no_slash | exact E].
  destruct s as [|c s]; [assumption|].
  destruct (char_eqb c c_slash); [constructor | assumption].
Qed.

Lemma proper_components (l : list str) : Forall proper l -> Forall component l.
Proof. apply List.Forall_impl. now intros x [H _]. Qed.

Lemma path_str_abs (st : list str) :
  path_str (MkPath [c_slash] st) = c_slash :: join_sep st.
Proof. reflexivity. Qed.

Lemma parse_abs (st : list str) :
  Forall proper st -> parse (c_slash :: join_sep st) = MkPath [c_slash] st.
Proof.
  intros H. rewrite <- path_str_abs. apply parse_path_str.
  split; [right; now left | now apply proper_components].
Qed.

Lemma resolve_nolinks_shape (cwd : list str) (p b : Path) :
  Forall proper cwd -> resolve (realpath_nolinks cwd) p = Ok b ->
  exists st, Forall proper st /\ b = MkPath [c_slash] st.
Proof.
  intros Hc. unfold resolve.
  destruct (realpath_nolinks cwd (path_str p)) as [r|e] eqn:E; [|discriminate].
  intros [= <-].
  destruct (realpath_nolinks_shape cwd _ _ Hc E) as (st & Hst & ->).
  exists st. split; [assumption | now apply parse_abs].
Qed.

(** The canonical path of a canonical path is itself. *)
Lemma realpath_nolinks_abs (cwd st : list str) :
  Forall proper st ->
  realpath_nolinks cwd (c_slash :: join_sep st) = Ok (c_slash :: join_sep st).
Proof.
  intros Hst. unfold realpath_nolinks.
  change (char_eqb c_slash c_slash) with true. cbv iota.
  change (split_sep (c_slash :: join_sep st)) with ([] :: split_sep (join_sep st)).
  cbn [realpath_walk]. change (str_eqb [] [] || str_eqb [] dot) with true.
  cbv iota.
  destruct st as [|x st]; [reflexivity|].
  rewrite split_join_sep by (try discriminate; now apply proper_components).
  now rewrite walk_proper.
Qed.

Lemma resolve_nolinks_abs (cwd st : list str) :
  Forall proper st ->
  resolve (realpath_nolinks cwd) (MkPath [c_slash] st) = Ok (MkPath [c_slash] st).
Proof.
  intros Hst. unfold resolve. rewrite path_str_abs.
  rewrite realpath_nolinks_abs by assumption. cbn [bind].
  now rewrite parse_abs.
Qed.

Lemma split_sep_join_app (l : list str) (f : str) :
  l <> [] -> Forall component l ->
  split_sep (join_sep l ++ c_slash :: f) = l ++ split_sep f.
Proof.
  induction l as [|x l IH]; [congruence|]. intros _ Hl.
  inversion Hl as [|? ? (_ & _ & Hx) Hl']; subst.
  destruct l as [|y l].
  - simpl join_sep. now rewrite split_sep_app.
  - rewrite join_sep_cons by discriminate.
    rewrite <- app_assoc. change ((c_slash :: join_sep (y :: l)) ++ c_slash :: f)
      with (c_slash :: (join_sep (y :: l) ++ c_slash :: f)).
    rewrite split_sep_app by assumption.
    rewrite IH by (auto; discriminate). reflexivity.
Qed.

Lemma join_sep_last (l : list str) :
  l <> [] -> Forall component l ->
  exists s c, join_sep l = s ++ [c] /\ c <> c_slash.
Proof.
  intros Hl Hc.
  rewrite (@app_removelast_last _ l [] Hl) in *.
  apply List.Forall_app in Hc as [_ Hc].
  inversion Hc as [|? ? (Hne & _ & Hs) _]; subst.
  rewrite join_sep_snoc.
  set (x := List.last l []) in *.
  destruct (@exists_last _ x Hne) as (x' & c & E). rewrite E in *.
  exists (flat_map (fun y => y ++ [c_slash]) (removelast l) ++ x'), c.
  split; [now rewrite app_assoc|].
  intros ->. apply Hs. apply in_or_app. right. now left.
Qed.

Lemma relative_parse (f : str) :
  relative f ->
  parse f = MkPath [] (List.filter is_component (split_sep f)).
Proof.
  unfold relative, parse, splitroot. destruct f as [|c f]; [reflexivity|].
  intros H. unfold char_eqb. now destruct (N.eqb_spec c c_slash).
Qed.

Lemma parse_slash_relative (c : char) (f : str) :
  c <> c_slash ->
  parse (c_slash :: c :: f) =
  MkPath [c_slash] (List.filter is_component (split_sep (c :: f))).
Proof.
  intros H. unfold parse, splitroot.
  change (char_eqb c_slash c_slash) with true.
  replace (char_eqb c c_slash) with false by (symmetry; now apply N.eqb_neq).
  reflexivity.
Qed.

Lemma parse_slash_join (l : list str) (f : str) :
  l <> [] -> Forall component l ->
  parse (c_slash :: (join_sep l ++ c_slash :: f)) =
  MkPath [c_slash] (l ++ List.filter is_component (split_sep f)).
Proof.
  intros Hl Hc.
  destruct (join_sep_head l Hl Hc) as (h & t & Eh & Hh).
  assert (E : c_slash :: (join_sep l ++ c_slash :: f)
              = c_slash :: h :: (t ++ c_slash :: f))
    by (rewrite Eh; reflexivity).
  rewrite E, parse_slash_relative by (now apply N.eqb_neq).
  change (h :: (t ++ c_slash :: f)) with ((h :: t) ++ c_slash :: f).
  rewrite <- Eh, split_sep_join_app by assumption.
  now rewrite List.filter_app, filter_components.
Qed.

(** Joining a relative name to a canonical directory. *)
Lemma joinpath_relative (st : list str) (f : str) :
  Forall proper st -> relative f ->
  joinpath (MkPath [c_slash] st) [f] =
  MkPath [c_slash] (st ++ path_tail (parse f)).
Proof.
  intros Hst Hrel. unfold joinpath. cbn [fold_left]. rewrite path_str_abs.
  rewrite (relative_parse f Hrel). cbn [path_tail].
  pose proof (proper_components _ Hst) as Hc.
  destruct st as [|x st].
  - (* the directory is the root *)
    simpl join_sep. unfold os_path_join.
    destruct f as [|c f].
    + reflexivity.
    + simpl in Hrel.
      replace (char_eqb c c_slash) with false
        by (symmetry; now apply N.eqb_neq).
      change (str_eqb [c_slash] [] || char_eqb (List.last [c_slash] 0%N) c_slash)
        with true. cbv iota.
      change ([c_slash] ++ c :: f) with (c_slash :: c :: f).
      now rewrite parse_slash_relative.
  - destruct (join_sep_last (x :: st)) as (s & c & Ej & Hcs);
      [discriminate | assumption |].
    assert (Ejoin : os_path_join (c_slash :: join_sep (x :: st)) f
                    = c_slash :: (join_sep (x :: st) ++ c_slash :: f)).
    { unfold os_path_join. rewrite Ej.
      change (c_slash :: s ++ [c]) with ((c_slash :: s) ++ [c]).
      rewrite !last_last.
      replace (char_eqb c c_slash) with false
        by (symmetry; now apply N.eqb_neq).
      destruct f as [|d f].
      - simpl. now rewrite <- app_assoc.
      - simpl in Hrel. replace (char_eqb d c_slash) with false
          by (symmetry; now apply N.eqb_neq).
        simpl. now rewrite <- app_assoc. }
    rewrite Ejoin. apply parse_slash_join; [discriminate | assumption].
Qed.

Lemma parsed_tail_proper (f : str) :
  ~ In dotdot (path_tail (parse f)) ->
  Forall (fun x => lstat_error x = None) (path_tail (parse f)) ->
  Forall proper (path_tail (parse f)).
Proof.
  intros Hd Hl. destruct (parse_wf f) as [_ Hc].
  rewrite List.Forall_forall in *. intros x Hin. split; [auto|].
  split; [|auto]. intros ->. contradiction.
Qed.

(** A relative name without a [".."] component, on whose components
    [lstat] does not raise, joins below the base. *)
Lemma safe_join_nolinks (cwd : list str) (base f : str) (b : Path) :
  Forall proper cwd -> relative f -> ~ In dotdot (path_tail (parse f)) ->
  Forall (fun x => lstat_error x = None) (path_tail (parse f)) ->
  resolve (realpath_nolinks cwd) (parse base) = Ok b ->
  safe_join (realpath_nolinks cwd) base [f] =
  Ok (path_str (MkPath [c_slash] (path_tail b ++ path_tail (parse f)))).
Proof.
  intros Hc Hrel Hd Hl Hb. unfold safe_join. rewrite Hb. cbn [bind].
  destruct (resolve_nolinks_shape cwd _ _ Hc Hb) as (st & Hst & ->).
  rewrite joinpath_relative by assumption. cbn [path_tail].
  assert (Hall : Forall proper (st ++ path_tail (parse f)))
    by (apply List.Forall_app; split; [assumption | now apply parsed_tail_proper]).
  rewrite resolve_nolinks_abs by assumption. cbn [bind].
  replace (is_relative_to _ _) with true; [reflexivity|].
  symmetry. apply is_relative_to_within. split; [reflexivity|].
  simpl. eauto.
Qed.

Lemma proper_home : Forall proper [u "home"].
Proof.
  constructor; [|constructor].
  split; [repeat split|split]; try discriminate; try reflexivity.
  intros H. vm_compute in H. intuition discriminate.
Qed.

(** X11. On a file system without symbolic links, a name that
    [validate_file_name] accepts in relative mode, and on whose
    components [lstat] does not raise (no NUL character, no surrogate
    that cannot be encoded), is joined without an error below any base
    that resolves: the result is the canonical base followed by the
    components of the name. *)
Theorem validated_name_joins_below_base (cwd : list str) (base filename : str)
    (base_path : Path) :
  Forall proper cwd ->
  validate_file_name filename true = Ok filename ->
  Forall (fun x => lstat_error x = None) (path_tail (parse filename)) ->
  resolve (realpath_nolinks cwd) (parse base) = Ok base_path ->
  safe_join (realpath_nolinks cwd) base [filename] =
  Ok (path_str (MkPath [c_slash]
        (path_tail base_path ++ path_tail (parse filename)))) /\
  within (MkPath [c_slash] (path_tail base_path ++ path_tail (parse filename)))
         base_path.
Proof.
  intros Hc Hv Hl Hb.
  destruct (validate_relative_inv _ _ Hv) as (_ & Hr & Hd).
  split.
  - apply safe_join_nolinks; try assumption. now apply root_nil_relative.
  - destruct (resolve_nolinks_shape cwd _ _ Hc Hb) as (st & _ & ->).
    split; [reflexivity | simpl; eauto].
Qed.

Lemma validated_name_joins_below_base_witness :
  safe_join (realpath_nolinks [u "home"]) (u "test_storage") [u "some/./file.txt"] =
  Ok (path_str (MkPath [c_slash]
        (path_tail (MkPath [c_slash] [u "home"; u "test_storage"]) ++
         path_tail (parse (u "some/./file.txt"))))) /\
  within (MkPath [c_slash]
            (path_tail (MkPath [c_slash] [u "home"; u "test_storage"]) ++
             path_tail (parse (u "some/./file.txt"))))
         (MkPath [c_slash] [u "home"; u "test_storage"]).
Proof.
  apply (validated_name_joins_below_base [u "home"] (u "test_storage")
           (u "some/./file.txt")).
  - exact proper_home.
  - reflexivity.
  - repeat constructor.
  - reflexivity.
Defined.

(** X12. On a file system without symbolic links, joining the empty
    name gives the canonical base itself, for every base; when the
    base does not resolve, its exception is passed on. *)
Theorem safe_join_empty_name (cwd : list str) (base : str) :
  Forall proper cwd ->
  safe_join (realpath_nolinks cwd) base [[]] =
  (do b <- resolve (realpath_nolinks cwd) (parse base); Ok (path_str b)).
Proof.
  intros Hc.
  destruct (resolve (realpath_nolinks cwd) (parse base)) as [b|e] eqn:Hb.
  - assert (Hd : ~ In dotdot (path_tail (parse []))) by (simpl; tauto).
    assert (Hl : Forall (fun x => lstat_error x = None) (path_tail (parse [])))
      by constructor.
    refine (eq_trans (safe_join_nolinks cwd base [] b Hc I Hd Hl Hb) _).
    destruct (resolve_nolinks_shape cwd _ _ Hc Hb) as (st & _ & ->).
    simpl path_tail. now rewrite app_nil_r.
  - unfold safe_join. now rewrite Hb.
Qed.

Lemma safe_join_empty_name_witness :
  safe_join (realpath_nolinks [u "home"]) (u "a/../b") [[]] =
  (do b <- resolve (realpath_nolinks [u "home"]) (parse (u "a/../b"));
   Ok (path_str b)).
Proof.
  apply (safe_join_empty_name [u "home"] (u "a/../b")).
  exact proper_home.
Defined.

(** ** [FileSystemStorage.save] and [delete] *)

Lemma resolve_wf (rp : str -> result str) (p b : Path) :
  resolve rp p = Ok b -> wf_path b.
Proof.
  unfold resolve. destruct (rp (path_str p)); [|discriminate].
  intros [= <-]. apply parse_wf.
Qed.

Lemma safe_join_canonical (rp : str -> result str) (base : str)
    (path : list str) (dst : str) :
  safe_join rp base path = Ok dst -> path_str (parse dst) = dst.
Proof.
  unfold safe_join.
  destruct (resolve rp (parse base)) as [b|e]; [|discriminate]. cbn [bind].
  destruct (resolve rp (joinpath b path)) as [j|e] eqn:Ej; [|discriminate].
  cbn [bind]. destruct (negb _); [discriminate|]. intros [= <-].
  now rewrite parse_path_str by (eapply resolve_wf; eassumption).
Qed.

Lemma join_location_canonical (rp : str -> result str) (loc f dst : str) :
  join_location rp loc f = Ok dst -> path_str (parse dst) = dst.
Proof.
  unfold join_location. destruct (location rp loc); [|discriminate].
  cbn [bind]. apply safe_join_canonical.
Qed.

Lemma preserved_refl (fs : fs_state) : preserved fs fs.
Proof. now intros p n H. Qed.

Lemma preserved_trans (a b c : fs_state) :
  preserved a b -> preserved b c -> preserved a c.
Proof. intros H1 H2 p n H. auto. Qed.

Lemma preserved_insert (fs : fs_state) (k : str) (n : node) :
  fs !! k = None -> preserved fs (<[k := n]> fs).
Proof.
  intros Hk p m H. destruct (decide (k = p)) as [->|Hne]; [congruence|].
  now rewrite lookup_insert_ne.
Qed.

Lemma makedirs_from_preserved (os : os_refusal) (todo : list str) :
  forall fs root done fs',
  makedirs_from os fs root done todo = Ok fs' -> preserved fs fs'.
Proof.
  induction todo as [|d todo IH]; intros fs root done fs'; simpl.
  - intros [= <-]. apply preserved_refl.
  - destruct (fs !! path_str (MkPath root (done ++ [d]))) as [[data|]|] eqn:E.
    + destruct todo; discriminate.
    + apply IH.
    + destruct (os fs _); [discriminate|].
      intros H. apply IH in H. eapply preserved_trans; [|exact H].
      now apply preserved_insert.
Qed.

Lemma open_x_ok (os : os_refusal) (fs fs' : fs_state) (p : Path)
    (data : list N) :
  open_x os fs p data = Ok fs' ->
  fs' = <[path_str p := File data]> fs /\ fs !! path_str p = None.
Proof.
  unfold open_x. destruct (os fs (path_str p)); [discriminate|].
  destruct (lexists fs (path_str p)) eqn:E; [discriminate|].
  intros H.
  assert (fs' = <[path_str p := File data]> fs).
  { destruct (is_dir fs (path_str (parent p))); [now injection H as <-|].
    destruct (fs !! path_str (parent p)) as [[d|]|]; discriminate. }
  split; [assumption|].
  unfold lexists in E. apply orb_false_iff in E as [_ E].
  destruct (fs !! path_str p); [discriminate | reflexivity].
Qed.

Section SaveLoop.

Variable realpath : str -> result str.
Variable os_refuses : os_refusal.
Variable tape : nat -> nat.
Variable _location : str.

(** A name returned by the loop of [_save]: its file holds the data, and
    its root is the one of the name the loop started with. Without
    other writers every earlier entry is still there and the file did
    not exist before. *)
Lemma save_loop_ok (fuel : nat) :
  forall filename dst_path data w nm w',
  save_loop realpath os_refuses tape _location fuel filename dst_path data w
    = Some (Ok (nm, w')) ->
  join_location realpath _location filename
    = Ok (path_str dst_path) ->
  exists dst,
    join_location realpath _location nm = Ok dst /\
    files w' !! dst = Some (File data) /\
    path_root (parse nm) = path_root (parse filename) /\
    (others w = [] ->
     others w' = [] /\ preserved (files w) (files w') /\ files w !! dst = None).
Proof.
  induction fuel as [|fuel IH]; intros filename dst_path data w nm w' H Hj;
    [discriminate|].
  cbn [save_loop] in H.
  set (fs := match others w with o :: _ => o (files w) | [] => files w end) in *.
  destruct (open_x os_refuses fs dst_path data) as [fs'|e] eqn:Eo.
  - injection H as <- <-. apply open_x_ok in Eo as [-> Hnone].
    exists (path_str dst_path). split; [assumption|].
    split; [apply lookup_insert_eq|]. split; [reflexivity|].
    intros Hw. subst fs. rewrite Hw in *. simpl.
    split; [reflexivity|]. split; [now apply preserved_insert | assumption].
  - destruct (issubclass (exc_type e) FileExistsError); [|discriminate].
    unfold run_bind in H.
    destruct (get_available_filename _ _ _ _ _ _) as [[[f' pos']|e']|] eqn:Eg;
      try discriminate.
    destruct (join_location realpath _location f') as [dst|e'] eqn:Ej;
      [|discriminate].
    apply resolver_ok_facts in Eg as (_ & _ & Hroot & _).
    apply IH in H.
    2:{ now rewrite (join_location_canonical _ _ _ _ Ej). }
    destruct H as (d & H1 & H2 & H3 & H4). exists d.
    split; [assumption|]. split; [assumption|].
    split; [congruence|].
    intros Hw. subst fs. rewrite Hw in *. simpl in H4. apply H4. reflexivity.
Qed.

Lemma _save_ok (fuel : nat) (filename : str) (data : list N) (w : world)
    (nm : str) (w' : world) :
  _save realpath os_refuses tape _location fuel filename data w = Some (Ok (nm, w')) ->
  exists dst,
    join_location realpath _location nm = Ok dst /\
    files w' !! dst = Some (File data) /\
    path_root (parse nm) = path_root (parse filename) /\
    (others w = [] ->
     others w' = [] /\ preserved (files w) (files w') /\ files w !! dst = None).
Proof.
  unfold _save.
  destruct (join_location realpath _location filename) as [dst0|e] eqn:Ej;
    [|discriminate].
  destruct (makedirs os_refuses (files w) (parent (parse dst0))) as [fs|e] eqn:Em;
    [|discriminate].
  intros H. apply save_loop_ok in H.
  2:{ now rewrite (join_location_canonical _ _ _ _ Ej). }
  destruct H as (d & H1 & H2 & H3 & H4). exists d.
  split; [assumption|]. split; [assumption|]. split; [assumption|].
  simpl in H4. intros Hw. destruct (H4 Hw) as (Ha & Hb & Hc).
  apply makedirs_from_preserved in Em.
  split; [assumption|]. split; [eapply preserved_trans; eassumption|].
  destruct (files w !! d) as [n|] eqn:E; [|reflexivity].
  apply Em in E. congruence.
Qed.

(** X13. When [save] returns a name, whatever other writers did in
    between: the file at [safe_join(location, name)] holds the data,
    [exists(name)] is true, the name passes relative-mode validation,
    and the desired name was not an absolute path. *)
Theorem save_stores_under_returned_name (fuel : nat) (filename : str)
    (data : list N) (max_len : Z) (w : world) (nm : str) (w' : world) :
  save realpath os_refuses tape _location fuel filename data max_len w
    = Some (Ok (nm, w')) ->
  exists dst,
    join_location realpath _location nm = Ok dst /\
    files w' !! dst = Some (File data) /\
    fs_exists realpath _location (files w') nm = Ok true /\
    validate_file_name nm true = Ok nm /\
    is_absolute (parse filename) = false.
Proof.
  unfold save, run_bind. intros H.
  destruct (get_available_filename _ _ _ _ _ _) as [[[f1 pos1]|e]|] eqn:Eg;
    try discriminate.
  destruct (_save _ _ _ _ _ _ _ _) as [[[f2 w2]|e]|] eqn:Es; try discriminate.
  destruct (validate_file_name f2 true) as [x|e] eqn:Ev; [|discriminate].
  injection H as <- <-.
  apply _save_ok in Es as (dst & H1 & H2 & H3 & _).
  apply resolver_ok_facts in Eg as (_ & _ & Hroot & _).
  pose proof (validate_file_name_passes_through _ _ _ Ev) as ->.
  destruct (validate_relative_inv _ _ Ev) as (_ & Hr & _).
  exists dst. split; [assumption|]. split; [assumption|]. split.
  - unfold fs_exists. rewrite H1. simpl. unfold lexists. rewrite H2.
    now rewrite orb_true_r.
  - split; [assumption|]. unfold is_absolute.
    rewrite <- Hroot, <- H3, Hr. reflexivity.
Qed.

(** X14. Without other writers, [save] never changes what was there:
    the returned name's path did not exist before the call, and every
    entry of the file system before the call is in it afterwards with
    the same content. *)
Theorem save_never_overwrites (fuel : nat) (filename : str)
    (data : list N) (max_len : Z) (w : world) (nm : str) (w' : world) :
  others w = [] ->
  save realpath os_refuses tape _location fuel filename data max_len w
    = Some (Ok (nm, w')) ->
  exists dst,
    join_location realpath _location nm = Ok dst /\
    files w !! dst = None /\
    preserved (files w) (files w').
Proof.
  unfold save, run_bind. intros Hw H.
  destruct (get_available_filename _ _ _ _ _ _) as [[[f1 pos1]|e]|] eqn:Eg;
    try discriminate.
  destruct (_save _ _ _ _ _ _ _ _) as [[[f2 w2]|e]|] eqn:Es; try discriminate.
  destruct (validate_file_name f2 true) as [x|e] eqn:Ev; [|discriminate].
  injection H as <- <-.
  apply _save_ok in Es as (dst & H1 & _ & _ & H4).
  destruct (H4 Hw) as (_ & Hp & Hn). simpl in Hp, Hn.
  exists dst. auto.
Qed.

(** X15. When [delete] returns, [exists] of the name is false
    afterwards, and every other path of the file system is as it was. *)
Theorem delete_removes_only_the_name (filename : str) (fs fs' : fs_state) :
  delete realpath _location filename fs = Ok fs' ->
  fs_exists realpath _location fs' filename = Ok false /\
  forall p,
    join_location realpath _location filename
      <> Ok p ->
    fs' !! p = fs !! p.
Proof.
  unfold delete, fs_exists, bind.
  destruct (join_location realpath _location filename) as [dst|e] eqn:Ej;
    [|discriminate].
  destruct (lexists fs dst) eqn:El.
  - unfold unlink. destruct (str_eqb dst root_str) eqn:Er; [discriminate|].
    destruct (fs !! dst) as [[d|]|] eqn:E; try discriminate.
    intros [= <-]. split.
    + unfold lexists. rewrite Er. now rewrite lookup_delete_eq.
    + intros p Hp. apply lookup_delete_ne. congruence.
  - intros [= <-]. split; [now rewrite El | reflexivity].
Qed.

End SaveLoop.

Lemma save_stores_under_returned_name_witness :
  exists dst,
    join_location (realpath_nolinks []) (u "/srv") (u "ab_abcdefg.txt")
      = Ok dst /\
    files (World (<[u "/srv/ab_abcdefg.txt" := File [104%N; 105%N]]>
                    (other_writer_creates (u "/srv/ab.txt") {[ u "/srv" := Dir ]}))
                 7 []) !! dst = Some (File [104%N; 105%N]) /\
    fs_exists (realpath_nolinks []) (u "/srv")
      (files (World (<[u "/srv/ab_abcdefg.txt" := File [104%N; 105%N]]>
                       (other_writer_creates (u "/srv/ab.txt") {[ u "/srv" := Dir ]}))
                    7 [])) (u "ab_abcdefg.txt") = Ok true /\
    validate_file_name (u "ab_abcdefg.txt") true = Ok (u "ab_abcdefg.txt") /\
    is_absolute (parse (u "ab.txt")) = false.
Proof.
  apply (save_stores_under_returned_name (realpath_nolinks []) os_permits_all
           tape_count
           (u "/srv") 3 (u "ab.txt") [104%N; 105%N] 6
           (World {[ u "/srv" := Dir ]} 0
              [other_writer_creates (u "/srv/ab.txt")])).
  vm_compute. reflexivity.
Defined.

Lemma save_never_overwrites_witness :
  exists dst,
    join_location (realpath_nolinks []) (u "/srv") (u "d/ab.txt") = Ok dst /\
    files (World {[ u "/srv" := Dir ]} 0 []) !! dst = None /\
    preserved (files (World {[ u "/srv" := Dir ]} 0 []))
      (files (World (<[u "/srv/d/ab.txt" := File [104%N]]>
                       (<[u "/srv/d" := Dir]> {[ u "/srv" := Dir ]})) 0 [])).
Proof.
  apply (save_never_overwrites (realpath_nolinks []) os_permits_all tape_count
           (u "/srv") 3
           (u "d/ab.txt") [104%N] 0 (World {[ u "/srv" := Dir ]} 0 [])).
  - reflexivity.
  - vm_compute. reflexivity.
Defined.

Lemma delete_removes_only_the_name_witness :
  fs_exists (realpath_nolinks []) (u "/srv")
    (<[u "/srv/d" := Dir]> {[ u "/srv" := Dir ]}) (u "d/ab.txt") = Ok false /\
  forall p,
    join_location (realpath_nolinks []) (u "/srv") (u "d/ab.txt") <> Ok p ->
    (<[u "/srv/d" := Dir]> {[ u "/srv" := Dir ]} : fs_state) !! p =
    (<[u "/srv/d/ab.txt" := File [104%N]]>
       (<[u "/srv/d" := Dir]> {[ u "/srv" := Dir ]}) : fs_state) !! p.
Proof.
  apply (delete_removes_only_the_name (realpath_nolinks []) (u "/srv")
           (u "d/ab.txt")).
  vm_compute. reflexivity.
Defined.

(** The scenario of the tests: a first save keeps the name, a second
    save of the same name gets another one, both exist, and after both
    are deleted neither exists. Deleting a directory is an error of the
    operating system. *)
Example test_save_file :
  let rp := realpath_nolinks [] in
  let fs0 : fs_state := {[ u "/srv" := Dir ]} in
  let fs1 : fs_state := <[u "/srv/sample.txt" := File [1%N]]> fs0 in
  let fs2 : fs_state := <[u "/srv/sample_abcdefg.txt" := File [2%N]]> fs1 in
  save rp os_permits_all tape_count (u "/srv") 3 (u "sample.txt") [1%N] 0 (World fs0 0 [])
    = Some (Ok (u "sample.txt", World fs1 0 [])) /\
  save rp os_permits_all tape_count (u "/srv") 3 (u "sample.txt") [2%N] 0 (World fs1 0 [])
    = Some (Ok (u "sample_abcdefg.txt", World fs2 7 [])) /\
  fs_exists rp (u "/srv") fs2 (u "sample.txt") = Ok true /\
  fs_exists rp (u "/srv") fs2 (u "file_doesnt_exists.txt") = Ok false /\
  (do fs3 <- delete rp (u "/srv") (u "sample.txt") fs2;
   delete rp (u "/srv") (u "sample_abcdefg.txt") fs3) = Ok fs0 /\
  delete rp (u "/srv") (u "") fs2 = Err (Raise OSError (OsError (u "/srv"))).
Proof. vm_compute. repeat split. Qed.

(** ** [save] without other writers *)

Lemma path_str_inj (p q : Path) :
  wf_path p -> wf_path q -> path_str p = path_str q -> p = q.
Proof.
  intros Hp Hq E. rewrite <- (parse_path_str p Hp), <- (parse_path_str q Hq).
  now rewrite E.
Qed.

(** [makedirs] touches only the directories it is asked for. *)
Lemma makedirs_from_changes (os : os_refusal) (todo : list str) :
  forall fs root done fs' k,
  makedirs_from os fs root done todo = Ok fs' ->
  (forall pre rest, pre <> [] -> todo = pre ++ rest ->
     k <> path_str (MkPath root (done ++ pre))) ->
  fs' !! k = fs !! k.
Proof.
  induction todo as [|d todo IH]; intros fs root done fs' k; simpl.
  - now intros [= <-].
  - intros H Hk.
    assert (Hk0 : k <> path_str (MkPath root (done ++ [d])))
      by (apply (Hk [d] todo); [discriminate | reflexivity]).
    assert (Hk' : forall pre rest, pre <> [] -> todo = pre ++ rest ->
              k <> path_str (MkPath root ((done ++ [d]) ++ pre))).
    { intros pre rest Hpre ->. rewrite <- app_assoc.
      apply (Hk (d :: pre) rest); [discriminate | reflexivity]. }
    destruct (fs !! path_str (MkPath root (done ++ [d]))) as [[data|]|] eqn:E.
    + destruct todo; discriminate.
    + eapply IH; eassumption.
    + destruct (os fs _); [discriminate|].
      erewrite IH by eassumption. apply lookup_insert_ne. congruence.
Qed.

(** After [makedirs] the last directory asked for is a directory. *)
Lemma makedirs_from_is_dir (os : os_refusal) (todo : list str) :
  forall fs root done fs',
  makedirs_from os fs root done todo = Ok fs' -> todo <> [] ->
  fs' !! path_str (MkPath root (done ++ todo)) = Some Dir.
Proof.
  induction todo as [|d todo IH]; intros fs root done fs' H Hne; [congruence|].
  simpl in H.
  destruct todo as [|d2 todo].
  - destruct (fs !! path_str (MkPath root (done ++ [d]))) as [[data|]|] eqn:E;
      simpl in H; try discriminate.
    + now injection H as <-.
    + destruct (os fs _); [discriminate|]. simpl in H. injection H as <-.
      apply lookup_insert_eq.
  - replace (done ++ d :: d2 :: todo) with ((done ++ [d]) ++ d2 :: todo)
      by now rewrite <- app_assoc.
    destruct (fs !! path_str (MkPath root (done ++ [d]))) as [[data|]|] eqn:E;
      try discriminate.
    + eapply IH; [eassumption | discriminate].
    + destruct (os fs _); [discriminate|].
      eapply IH; [eassumption | discriminate].
Qed.

(** X16. Without other writers, when the resolver returns a name that
    passes relative-mode validation, whose joined path is absolute,
    whose parent directories can be made, and at whose path the
    operating system does not refuse to create a file (the name is not
    too long, the directory may be written, the disk is not full),
    [save] stores the data under exactly that name at the first write,
    without a retry: the file system afterwards is the one after
    [makedirs] with the new file added. *)
Theorem save_without_other_writers (realpath : str -> result str)
    (os_refuses : os_refusal) (tape : nat -> nat) (_location : str)
    (fuel : nat) (filename : str) (data : list N) (max_len : Z) (w : world)
    (nm : str) (pos' : nat) (dst : str) (fs : fs_state) :
  others w = [] ->
  get_available_filename (fs_exists realpath _location (files w)) tape fuel
    filename max_len (rng_pos w) = Some (Ok (nm, pos')) ->
  validate_file_name nm true = Ok nm ->
  join_location realpath _location nm = Ok dst ->
  path_root (parse dst) = [c_slash] ->
  makedirs os_refuses (files w) (parent (parse dst)) = Ok fs ->
  os_refuses fs dst = None ->
  save realpath os_refuses tape _location fuel filename data max_len w
    = Some (Ok (nm, World (<[dst := File data]> fs) pos' [])).
Proof.
  intros Hw Hg Hv Hj Hroot Hm Hos.
  assert (Hfuel : exists fuel', fuel = S fuel').
  { destruct fuel as [|fuel']; [|eauto]. exfalso.
    unfold get_available_filename in Hg.
    destruct (check_origin _); discriminate. }
  destruct Hfuel as (fuel' & ->).
  pose proof (resolver_ok_facts _ _ _ _ _ _ _ _ Hg) as (Hfree & _).
  unfold fs_exists in Hfree. rewrite Hj in Hfree. simpl in Hfree.
  injection Hfree as Hfree.
  unfold save. rewrite Hg. unfold run_bind at 1.
  unfold _save. cbn [files rng_pos others]. rewrite Hj, Hm, Hw.
  cbn [save_loop others files List.tl rng_pos].
  pose proof (join_location_canonical _ _ _ _ Hj) as Hcan.
  pose proof (parse_wf dst) as Hwf.
  set (dp := parse dst) in *.
  (* the path is new in the file system after makedirs *)
  assert (Hsame : fs !! dst = files w !! dst).
  { unfold makedirs in Hm. eapply makedirs_from_changes; [exact Hm|].
    intros pre rest Hpre E Hk. cbn [path_root path_tail parent app] in *.
    rewrite <- Hcan in Hk.
    apply path_str_inj in Hk; [| assumption |].
    - apply (f_equal path_tail) in Hk. cbn [path_tail] in Hk.
      destruct (path_tail dp) as [|x t] eqn:Et; [now subst pre|].
      rewrite (@app_removelast_last _ (x :: t) [] ltac:(discriminate)) in Hk.
      rewrite E in Hk. rewrite <- app_assoc in Hk.
      apply (f_equal (@length _)) in Hk. rewrite !length_app in Hk.
      simpl in Hk. lia.
    - destruct Hwf as [Hr Hc]. split; [exact Hr|]. cbn [path_tail].
      apply Forall_removelast in Hc. rewrite E in Hc.
      now apply List.Forall_app in Hc as [Hc _]. }
  assert (Hnew : lexists fs dst = false).
  { unfold lexists in *. apply orb_false_iff in Hfree as [Hr Hl].
    rewrite Hr, Hsame. exact Hl. }
  assert (Hdir : is_dir fs (path_str (parent dp)) = true).
  { unfold is_dir. apply orb_true_iff.
    destruct (removelast (path_tail dp)) as [|x t] eqn:Et.
    - left. unfold parent. rewrite Et, Hroot. reflexivity.
    - right. unfold makedirs in Hm. cbn [parent path_root path_tail] in Hm.
      apply makedirs_from_is_dir in Hm; [|rewrite Et; discriminate].
      cbn [app] in Hm. unfold parent. now rewrite Hm. }
  unfold open_x. rewrite Hcan, Hos, Hnew, Hdir.
  unfold run_bind. rewrite Hv. reflexivity.
Qed.

Lemma save_without_other_writers_witness :
  save (realpath_nolinks []) os_permits_all tape_count (u "/srv") 3
    (u "d/ab.txt") [104%N] 0 (World {[ u "/srv" := Dir ]} 0 [])
  = Some (Ok (u "d/ab.txt",
              World (<[u "/srv/d/ab.txt" := File [104%N]]>
                       (<[u "/srv/d" := Dir]> {[ u "/srv" := Dir ]})) 0 [])).
Proof.
  apply (save_without_other_writers (realpath_nolinks []) os_permits_all
           tape_count (u "/srv")
           3 (u "d/ab.txt") [104%N] 0 (World {[ u "/srv" := Dir ]} 0 [])
           (u "d/ab.txt") 0 (u "/srv/d/ab.txt")
           (<[u "/srv/d" := Dir]> {[ u "/srv" := Dir ]})).
  - reflexivity.
  - vm_compute. reflexivity.
  - reflexivity.
  - reflexivity.
  - reflexivity.
  - vm_compute. reflexivity.
  - reflexivity.
Defined.

(** A name that the operating system refuses: the exclusive write
    raises its error, which is not a [FileExistsError], and [save]
    passes it on. *)
Example save_refused_by_os :
  let too_long : os_refusal :=
    fun _ p => if (20 <? len p) then Some (Raise OSError (OsError p)) else None in
  save (realpath_nolinks []) too_long tape_count (u "/srv") 3
    (u "a_very_long_file_name.txt") [104%N] 0 (World {[ u "/srv" := Dir ]} 0 [])
  = Some (Err (Raise OSError (OsError (u "/srv/a_very_long_file_name.txt")))).
Proof. vm_compute. reflexivity. Qed.

(** ** The exception class of the name failures *)

Lemma check_origin_fails (origin : Path) :
  wf_path origin ->
  path_tail origin = [] \/ In dotdot (path_tail origin) ->
  exists e, check_origin origin = Err e /\ exc_type e = SuspiciousFileOperation.
Proof.
  intros Hwf H. destruct (check_origin origin) as [x|e] eqn:Ec.
  - exfalso. pose proof (check_origin_value _ _ Ec) as ->.
    apply check_origin_ok_iff in Ec as (Ht & Hd); [|assumption].
    destruct H; contradiction.
  - exists e. split; [reflexivity|]. eapply check_origin_err; eassumption.
Qed.

(** C10: an exception with which [get_valid_filename], [safe_join],
    [validate_file_name] or [get_available_filename] (over an [exists]
    that does not raise) ends is one that [realpath] raised, which
    [safe_join] passes on, or has the class [SuspiciousFileOperation],
    a subclass of [ValueError]. And each failure of a name that these
    operations test for themselves (an unusable last component, an
    embedded path, an absolute path, a [".."] component, a joined path
    outside the base, an exhausted budget) does end the call with an
    exception of that one class: the kinds are told apart by the
    message only. *)
Theorem name_failures_are_suspicious (c : call) :
  (forall e, raised c = Some e ->
     from_realpath c e \/
     (exc_type e = SuspiciousFileOperation /\
      issubclass (exc_type e) ValueError = true)) /\
  (name_failure c ->
   exists e, raised c = Some e /\
     exc_type e = SuspiciousFileOperation /\
     issubclass (exc_type e) ValueError = true).
Proof.
  assert (Hsub : forall e, exc_type e = SuspiciousFileOperation ->
            exc_type e = SuspiciousFileOperation /\
            issubclass (exc_type e) ValueError = true)
    by (intros e Ht; split; [assumption | now rewrite Ht]).
  split.
  - intros e H.
    destruct c as [ucd nm | rp base path | f a | ex tape fuel f m pos];
      simpl in H.
    + right. apply Hsub. unfold get_valid_filename in H.
      destruct (str_in _ _); [now injection H as <- | discriminate].
    + unfold safe_join, resolve in H.
      destruct (rp (path_str (parse base))) as [s1|e1] eqn:E1.
      2:{ injection H as <-. left. simpl. eauto. }
      cbn [bind] in H.
      destruct (rp (path_str (joinpath (parse s1) path))) as [s2|e2] eqn:E2.
      2:{ injection H as <-. left. simpl. eauto. }
      cbn [bind] in H. right. apply Hsub.
      destruct (negb _); [now injection H as <- | discriminate].
    + right. apply Hsub.
      destruct (validate_file_name f a) eqn:E; [discriminate|].
      injection H as ->. eapply validate_file_name_err; eassumption.
    + right. apply Hsub.
      destruct (get_available_filename _ _ _ _ _ _) as [[x|e0]|] eqn:E;
        try discriminate.
      injection H as ->. unfold get_available_filename in E.
      destruct (check_origin (parse f)) as [x|e0] eqn:Ec.
      * apply available_loop_err in E as [(n & Hx) | (_ & ->)];
          [discriminate | reflexivity | apply parse_wf |].
        eapply check_origin_name; eassumption.
      * injection E as <-. eapply check_origin_err; eassumption.
  - intros Hf.
    assert (Hres : forall ex tape fuel f m pos,
              path_tail (parse f) = [] \/ In dotdot (path_tail (parse f)) ->
              exists e,
                raised (CallGetAvailableFilename ex tape fuel f m pos) = Some e /\
                exc_type e = SuspiciousFileOperation /\
                issubclass (exc_type e) ValueError = true).
    { intros ex tape fuel f m pos H.
      destruct (check_origin_fails (parse f) (parse_wf f) H) as (e & Ec & Ht).
      exists e. split; [|now apply Hsub].
      simpl. unfold get_available_filename. now rewrite Ec. }
    destruct Hf as [ucd raw H | f a H | f p0 ps Hp Hne | f Hr | f Hd
                   | rp base path b j Hb Hj Hw
                   | ex tape fuel f m pos Hd | ex tape fuel f m pos Ht
                   | ex tape fuel f m pos Ht Hd Hc Hm].
    + apply str_in_In in H. eexists.
      split; [simpl; unfold get_valid_filename; now rewrite H | now apply Hsub].
    + apply str_in_In in H. eexists.
      split; [simpl; unfold validate_file_name; now rewrite H | now apply Hsub].
    + simpl. unfold validate_file_name.
      destruct (str_in (name (parse f)) _);
        [eexists; split; [reflexivity | now apply Hsub]|].
      rewrite Hp. apply str_eqb_neq in Hne. rewrite Hne.
      eexists; split; [reflexivity | now apply Hsub].
    + simpl. unfold validate_file_name.
      destruct (str_in (name (parse f)) _);
        [eexists; split; [reflexivity | now apply Hsub]|].
      unfold is_absolute. apply str_eqb_neq in Hr. rewrite Hr.
      eexists; split; [reflexivity | now apply Hsub].
    + simpl. unfold validate_file_name.
      destruct (str_in (name (parse f)) _);
        [eexists; split; [reflexivity | now apply Hsub]|].
      apply str_in_In in Hd. rewrite Hd, orb_true_r.
      eexists; split; [reflexivity | now apply Hsub].
    + simpl. unfold safe_join. rewrite Hb. cbn [bind]. rewrite Hj. cbn [bind].
      replace (is_relative_to j b) with false.
      * eexists; split; [reflexivity | now apply Hsub].
      * symmetry. destruct (is_relative_to j b) eqn:E; [|reflexivity].
        apply is_relative_to_within in E. contradiction.
    + apply Hres. right. now apply parts_dotdot; [apply parse_wf|].
    + apply Hres. now left.
    + pose proof (exhaustion_first_iteration (fun n => Ok (ex n)) tape fuel f m
                    pos (ex f) Ht Hd eq_refl Hc Hm) as E.
      eexists. split; [simpl; now rewrite E | now apply Hsub].
Qed.

Lemma name_failures_are_suspicious_witness :
  (from_realpath
     (CallSafeJoin (realpath_nolinks []) (u "/abc") [u "../def"])
     (Raise SuspiciousFileOperation (NotSubpath (u "/def") (u "/abc"))) \/
   (exc_type (Raise SuspiciousFileOperation (NotSubpath (u "/def") (u "/abc")))
      = SuspiciousFileOperation /\
    issubclass
      (exc_type (Raise SuspiciousFileOperation (NotSubpath (u "/def") (u "/abc"))))
      ValueError = true)) /\
  (exists e,
     raised (CallGetAvailableFilename (fun _ => false) tape_count 1
               (u "a.txt") 4 0) = Some e /\
     exc_type e = SuspiciousFileOperation /\
     issubclass (exc_type e) ValueError = true).
Proof.
  split.
  - apply (proj1 (name_failures_are_suspicious
                    (CallSafeJoin (realpath_nolinks []) (u "/abc") [u "../def"]))).
    reflexivity.
  - apply (proj2 (name_failures_are_suspicious
                    (CallGetAvailableFilename (fun _ => false) tape_count 1
                       (u "a.txt") 4 0))).
    apply NfExhausted.
    + discriminate.
    + simpl. intros [H|[]]. discriminate H.
    + right. reflexivity.
    + split; [lia | vm_compute; discriminate].
Defined.

(** A name with a NUL character passes both checks of the code and is
    refused by [realpath] with a plain [ValueError]. *)
Example nul_name_fails_in_realpath :
  validate_file_name [97%N; 0%N; 98%N] true = Ok [97%N; 0%N; 98%N] /\
  safe_join (realpath_nolinks []) (u "/srv") [[97%N; 0%N; 98%N]]
    = Err (Raise ValueError EmbeddedNullByte).
Proof. split; reflexivity. Qed.

(** ** Names that [lstat] refuses *)

Lemma walk_refused (l1 : list str) (x : str) (l2 : list str) (e : exn) :
  forall st,
  Forall proper l1 -> component x -> x <> dotdot -> lstat_error x = Some e ->
  realpath_walk st (l1 ++ x :: l2) = Err e.
Proof.
  induction l1 as [|y l1 IH]; intros st Hl Hx H3 He; simpl.
  - destruct Hx as (H1 & H2 & _).
    apply str_eqb_neq in H1, H2, H3. now rewrite H1, H2, H3, He.
  - inversion Hl as [|? ? Hy Hl']; subst.
    destruct (proper_tests y Hy) as (-> & -> & -> & ->). simpl.
    now apply IH.
Qed.

Lemma lstat_error_class (x : str) (e : exn) :
  lstat_error x = Some e ->
  exc_type e = UnicodeEncodeError \/ exc_type e = ValueError.
Proof.
  unfold lstat_error. destruct (existsb unencodable x); [intros [= <-]; now left|].
  destruct (existsb (N.eqb 0) x); [intros [= <-]; now right | discriminate].
Qed.

(** X17. On a file system without symbolic links, a name that
    [validate_file_name] accepts in relative mode but that has a
    component with a NUL character or a surrogate that cannot be
    encoded is refused by [safe_join] with the exception of [lstat] on
    the first such component, a [ValueError] or [UnicodeEncodeError]
    and not a [SuspiciousFileOperation]: the validation of the code
    does not cover these names. *)
Theorem unencodable_name_refused_by_realpath (cwd : list str)
    (base filename : str) (base_path : Path) (l1 : list str) (x : str)
    (l2 : list str) (e : exn) :
  Forall proper cwd ->
  validate_file_name filename true = Ok filename ->
  resolve (realpath_nolinks cwd) (parse base) = Ok base_path ->
  path_tail (parse filename) = l1 ++ x :: l2 ->
  Forall (fun y => lstat_error y = None) l1 ->
  lstat_error x = Some e ->
  safe_join (realpath_nolinks cwd) base [filename] = Err e /\
  exc_type e <> SuspiciousFileOperation.
Proof.
  intros Hc Hv Hb Ht Hl He. split.
  2:{ destruct (lstat_error_class _ _ He) as [-> | ->]; discriminate. }
  destruct (validate_relative_inv _ _ Hv) as (_ & Hr & Hd).
  destruct (resolve_nolinks_shape cwd _ _ Hc Hb) as (st & Hst & ->).
  unfold safe_join. rewrite Hb. cbn [bind].
  rewrite joinpath_relative by (assumption || now apply root_nil_relative).
  rewrite Ht. unfold resolve. rewrite path_str_abs.
  destruct (parse_wf filename) as [_ Hcomp]. rewrite Ht in Hcomp, Hd.
  apply List.Forall_app in Hcomp as [Hc1 Hc2].
  inversion Hc2 as [|? ? Hx Hc3]; subst.
  assert (Hp1 : Forall proper (st ++ l1)).
  { apply List.Forall_app. split; [assumption|].
    rewrite List.Forall_forall in *. intros y Hy.
    split; [auto|]. split; [|auto]. intros ->. apply Hd.
    apply in_or_app. now left. }
  assert (Hxd : x <> dotdot)
    by (intros ->; apply Hd; apply in_or_app; right; now left).
  unfold realpath_nolinks.
  change (char_eqb c_slash c_slash) with true. cbv iota.
  change (split_sep (c_slash :: join_sep (st ++ l1 ++ x :: l2)))
    with ([] :: split_sep (join_sep (st ++ l1 ++ x :: l2))).
  cbn [realpath_walk]. change (str_eqb [] [] || str_eqb [] dot) with true.
  cbv iota.
  rewrite split_join_sep.
  - rewrite app_assoc. now rewrite (walk_refused (st ++ l1) x l2 e).
  - intros E. apply app_eq_nil in E as [_ E]. apply app_eq_nil in E as [_ E].
    discriminate E.
  - apply List.Forall_app. split; [now apply proper_components|].
    apply List.Forall_app. split; [assumption | constructor; assumption].
Qed.

Lemma unencodable_name_refused_by_realpath_witness :
  safe_join (realpath_nolinks [u "home"]) (u "srv") [[100%N; 47%N; 97%N; 0%N; 98%N]]
    = Err (Raise ValueError EmbeddedNullByte) /\
  exc_type (Raise ValueError EmbeddedNullByte) <> SuspiciousFileOperation.
Proof.
  apply (unencodable_name_refused_by_realpath [u "home"] (u "srv")
           [100%N; 47%N; 97%N; 0%N; 98%N]
           (MkPath [c_slash] [u "home"; u "srv"])
           [u "d"] [97%N; 0%N; 98%N] []).
  - exact proper_home.
  - reflexivity.
  - reflexivity.
  - reflexivity.
  - repeat constructor.
  - reflexivity.
Defined.
